(** * A shallow embedding of the piano's note-lifecycle and scheduling core

    The development follows [script.js] class by class:
    - [PianoAudioEngine]: the note -> sound map, the sustain pedal and its
      set of held notes;
    - [RecordingEngine]: timestamped recording and its timed playback;
    - [AIComposer]: mood analysis, melody generation and the
      self-rescheduling composition loop;
    - [Metronome]: the repeating click timer;
    - [VirtualPiano]: the keyboard handlers that drive the engines.

    JavaScript objects become records, the [Map] of active notes a [gmap],
    the insertion-ordered [Set] of sustained notes a duplicate-free list,
    timers an explicit list of pending callbacks, [Date.now()] an explicit
    clock, and [Math.random()] an explicit stream of draws. *)

From Stdlib Require Import ZArith QArith Qround Lia.
From stdpp Require Import gmap strings list.

Local Open Scope string_scope.
Local Open Scope list_scope.

(** * Audio engine *)

Module PianoAudioEngine.

(** The object returned by [createPianoSound]: one started oscillator,
    identified by its creation rank, sounding at [frequency]. *)
Record Sound := mkSound { osc : nat; frequency : Q }.

(** [this.noteFrequencies], in the order of the object literal. *)
Definition noteFrequencies : list (string * Q) :=
  [ ("C4", 26163 # 100); ("C#4", 27718 # 100); ("D4", 29366 # 100);
    ("D#4", 31113 # 100); ("E4", 32963 # 100); ("F4", 34923 # 100);
    ("F#4", 36999 # 100); ("G4", 39200 # 100); ("G#4", 41530 # 100);
    ("A4", 44000 # 100); ("A#4", 46616 # 100); ("B4", 49388 # 100);
    ("C5", 52325 # 100); ("C#5", 55437 # 100); ("D5", 58733 # 100);
    ("D#5", 62225 # 100); ("E5", 65925 # 100) ]%Q.

(** [this.noteFrequencies[note]]: [None] is JavaScript's [undefined].
    The lookup is over the literal's own keys; identifiers naming members
    inherited from [Object.prototype] are not note identifiers and are
    outside this model. *)
Fixpoint lookup_note (table : list (string * Q)) (note : string) : option Q :=
  match table with
  | [] => None
  | (k, f) :: rest => if String.eqb k note then Some f else lookup_note rest note
  end.

Definition frequencyOf (note : string) : option Q := lookup_note noteFrequencies note.

(** Truthiness of a looked-up frequency, as tested by [!this.noteFrequencies[note]]. *)
Definition truthy (v : option Q) : bool :=
  match v with
  | None => false
  | Some f => negb (Qeq_bool f 0)
  end.

(** The engine's fields, together with the part of the audio context the
    engine drives: the rank of the next oscillator and the oscillators that
    were started and whose [stop] has not been called. *)
Record Engine := mkEngine {
  activeNotes : gmap string Sound;
  sustainActive : bool;
  sustainedNotes : list string;
  nextOsc : nat;
  sounding : list Sound
}.

(** The constructor's state. *)
Definition init : Engine :=
  {| activeNotes := ∅; sustainActive := false; sustainedNotes := [];
     nextOsc := 0; sounding := [] |}.

Definition with_activeNotes (m : gmap string Sound) (e : Engine) : Engine :=
  {| activeNotes := m; sustainActive := sustainActive e;
     sustainedNotes := sustainedNotes e; nextOsc := nextOsc e;
     sounding := sounding e |}.

Definition with_sustainActive (b : bool) (e : Engine) : Engine :=
  {| activeNotes := activeNotes e; sustainActive := b;
     sustainedNotes := sustainedNotes e; nextOsc := nextOsc e;
     sounding := sounding e |}.

Definition with_sustainedNotes (l : list string) (e : Engine) : Engine :=
  {| activeNotes := activeNotes e; sustainActive := sustainActive e;
     sustainedNotes := l; nextOsc := nextOsc e; sounding := sounding e |}.

(** [Set.prototype.add]: insertion order is kept, a present element is not
    added again. *)
Definition set_add (note : string) (s : list string) : list string :=
  if decide (note ∈ s) then s else s ++ [note].

(** [createPianoSound(frequency)]: a fresh oscillator is started. *)
Definition createPianoSound (f : Q) (e : Engine) : Sound * Engine :=
  let s := mkSound (nextOsc e) f in
  (s, {| activeNotes := activeNotes e; sustainActive := sustainActive e;
         sustainedNotes := sustainedNotes e; nextOsc := S (nextOsc e);
         sounding := sounding e ++ [s] |}).

(** [sound.stop()]: the release envelope runs and the oscillator is told to
    stop; it no longer counts as sounding. *)
Definition sound_stop (s : Sound) (e : Engine) : Engine :=
  {| activeNotes := activeNotes e; sustainActive := sustainActive e;
     sustainedNotes := sustainedNotes e; nextOsc := nextOsc e;
     sounding := filter (λ x, osc x ≠ osc s) (sounding e) |}.

(** [stopNote(note)]. *)
Definition stopNote (note : string) (e : Engine) : Engine :=
  if sustainActive e then
    with_sustainedNotes (set_add note (sustainedNotes e)) e
  else
    match activeNotes e !! note with
    | Some sound =>
        let e1 := sound_stop sound e in
        with_activeNotes (delete note (activeNotes e1)) e1
    | None => e
    end.

(** [playNote(note)], with the sound it returns ([None] for the early
    return).  Resuming a suspended audio context changes none of the
    engine's fields and is left out. *)
Definition playNote (note : string) (e : Engine) : Engine * option Sound :=
  if negb (truthy (frequencyOf note)) then (e, None)
  else
    let e1 := if bool_decide (is_Some (activeNotes e !! note))
              then stopNote note e else e in
    match frequencyOf note with
    | Some f =>
        let '(sound, e2) := createPianoSound f e1 in
        (with_activeNotes (<[note := sound]> (activeNotes e2)) e2, Some sound)
    | None => (e, None)
    end.

(** The body of the [forEach] callback in [setSustain]. *)
Definition releaseSustained (e : Engine) (note : string) : Engine :=
  match activeNotes e !! note with
  | Some sound =>
      let e1 := sound_stop sound e in
      with_activeNotes (delete note (activeNotes e1)) e1
  | None => e
  end.

(** [setSustain(active)]. *)
Definition setSustain (active : bool) (e : Engine) : Engine :=
  let e1 := with_sustainActive active e in
  if negb active then
    let e2 := foldl releaseSustained e1 (sustainedNotes e1) in
    with_sustainedNotes [] e2
  else e1.

(** The voice manager's operations, as the input router and the other
    engines invoke them. *)
Inductive Op :=
| Press (note : string)
| Release (note : string)
| SetSustain (active : bool).

Definition press (note : string) (e : Engine) : Engine := fst (playNote note e).
Definition release (note : string) (e : Engine) : Engine := stopNote note e.

Definition apply_op (e : Engine) (o : Op) : Engine :=
  match o with
  | Press n => press n e
  | Release n => release n e
  | SetSustain b => setSustain b e
  end.

Definition run (ops : list Op) : Engine := foldl apply_op init ops.

(** The sounds currently audible for a note: those sounding at the note's
    frequency (the table maps distinct notes to distinct frequencies). *)
Definition liveVoices (note : string) (e : Engine) : list Sound :=
  match frequencyOf note with
  | Some f => filter (λ s, Qeq_bool (frequency s) f = true) (sounding e)
  | None => []
  end.

(** The held set is empty whenever the pedal is up. *)
Definition pedal_inv (e : Engine) : Prop :=
  sustainActive e = false → sustainedNotes e = [].

(** Only identifiers of the table ever get an entry in the map. *)
Definition keys_known (e : Engine) : Prop :=
  ∀ n, is_Some (activeNotes e !! n) → is_Some (frequencyOf n).

(** Every entry of the map is an oscillator that sounds at its note's
    frequency; distinct notes have distinct oscillators; ranks below
    [nextOsc] are the only ones in use, each at most once. *)
Definition voices_inv (e : Engine) : Prop :=
  (∀ n s, activeNotes e !! n = Some s →
          s ∈ sounding e ∧ frequencyOf n = Some (frequency s)) ∧
  (∀ n m s t, activeNotes e !! n = Some s → activeNotes e !! m = Some t →
              osc s = osc t → n = m) ∧
  (∀ s, s ∈ sounding e → (osc s < nextOsc e)%nat) ∧
  NoDup (osc <$> sounding e).

(** A sequence of operations in which the pedal is never pressed. *)
Definition pedalFree (ops : list Op) : Prop :=
  Forall (λ o, o ≠ SetSustain true) ops.

(** The pedal is up and every sounding oscillator is the entry of a note. *)
Definition no_orphans (e : Engine) : Prop :=
  sustainActive e = false ∧
  ∀ s, s ∈ sounding e → ∃ n, activeNotes e !! n = Some s.

End PianoAudioEngine.

(** * Recording and playback *)

Module RecordingEngine.

(** One entry of [this.recordedNotes]. *)
Record RecordedEvent := mkEvent { note : string; timestamp : Z; isPress : bool }.

(** The engine's fields. *)
Record Engine := mkEngine {
  recording : bool;
  recordedNotes : list RecordedEvent;
  startTime : Z
}.

(** The constructor's state. *)
Definition init : Engine :=
  {| recording := false; recordedNotes := []; startTime := 0 |}.

(** A call received by the playback sink. *)
Inductive PianoCall :=
| PressKey (note : string)
| ReleaseKey (note : string).

(** What playback runs against: the engine itself, the wall clock read by
    [Date.now()] (in milliseconds), and the calls the sink has received,
    each with the clock value at which it was made. *)
Record World := mkWorld {
  engine : Engine;
  now : Z;
  calls : list (Z * PianoCall)
}.

(** [startRecording()], [stopRecording()], [hasRecording()]. *)
Definition startRecording (w : World) : World :=
  {| engine := {| recording := true; recordedNotes := []; startTime := now w |};
     now := now w; calls := calls w |}.

Definition stopRecording (w : World) : World :=
  {| engine := {| recording := false;
                  recordedNotes := recordedNotes (engine w);
                  startTime := startTime (engine w) |};
     now := now w; calls := calls w |}.

Definition hasRecording (e : Engine) : bool :=
  bool_decide (0 < length (recordedNotes e))%nat.

(** [recordNote(note, isPress)]: the event is pushed onto the array that
    [this.recordedNotes] currently names. *)
Definition recordNote (n : string) (p : bool) (w : World) : World :=
  if negb (recording (engine w)) then w
  else
    let ts := (now w - startTime (engine w))%Z in
    {| engine := {| recording := recording (engine w);
                    recordedNotes := recordedNotes (engine w) ++ [mkEvent n ts p];
                    startTime := startTime (engine w) |};
       now := now w; calls := calls w |}.

(** The sink handed to [playback] is the piano controller.  Its [pressKey]
    and [releaseKey] sound the note and update the page (kept here as the
    logged call) and tap the recorder through [recordNote]: the sink and
    the loop share the recorded array. *)
Definition logCall (c : PianoCall) (w : World) : World :=
  {| engine := engine w; now := now w; calls := calls w ++ [(now w, c)] |}.

Definition pressKey (n : string) (w : World) : World :=
  recordNote n true (logCall (PressKey n) w).

Definition releaseKey (n : string) (w : World) : World :=
  recordNote n false (logCall (ReleaseKey n) w).

(** The passing of time, which the program does not control: before the
    [i]-th iteration reads [Date.now()], [elapsed i] milliseconds have gone
    by since the previous clock reading, and a timer set in that iteration
    fires [lateness i] milliseconds after its requested delay.  Both are
    natural numbers: the clock does not run backwards and a timer does not
    fire early. *)
Record Timing := mkTiming { elapsed : nat -> nat; lateness : nat -> nat }.

Definition advance (d : Z) (w : World) : World :=
  {| engine := engine w; now := (now w + d)%Z; calls := calls w |}.

(** One iteration of the [for ... of] loop, on the event at index [i]. *)
Definition playEvent (tm : Timing) (anchor : Z) (i : nat) (event : RecordedEvent)
    (w : World) : World :=
  let w1 := advance (Z.of_nat (elapsed tm i)) w in
  let targetTime := (anchor + timestamp event)%Z in
  let delay := (targetTime - now w1)%Z in
  let w2 := if (0 <? delay)%Z
            then advance (delay + Z.of_nat (lateness tm i)) w1
            else w1 in
  if isPress event then pressKey (note event) w2 else releaseKey (note event) w2.

(** The array iterator: at each step the index is compared with the
    array's current length, so events pushed during the iteration are
    visited too.  [None] stands for a loop still running when the fuel is
    spent. *)
Fixpoint playLoop (fuel : nat) (tm : Timing) (anchor : Z) (i : nat) (w : World)
    : option World :=
  match recordedNotes (engine w) !! i with
  | None => Some w
  | Some event =>
      match fuel with
      | O => None
      | S fuel' => playLoop fuel' tm anchor (S i) (playEvent tm anchor i event w)
      end
  end.

(** [playback(piano)]. *)
Definition playback (fuel : nat) (tm : Timing) (w : World) : option World :=
  if (length (recordedNotes (engine w)) =? 0)%nat then Some w
  else
    let startTime := now w in
    playLoop fuel tm startTime 0 w.

(** A recording session as the controller drives it: [startRecording],
    then presses and releases of keys, each some milliseconds after the
    previous clock reading, then [stopRecording]. *)
Definition KeyEvent : Type := nat * string * bool.

Definition keyEvent (w : World) (k : KeyEvent) : World :=
  let '(dt, n, p) := k in
  if p then pressKey n (advance (Z.of_nat dt) w)
  else releaseKey n (advance (Z.of_nat dt) w).

Definition session (t0 : Z) (keys : list KeyEvent) : World :=
  stopRecording (foldl keyEvent (startRecording (mkWorld init t0 [])) keys).

(** The sink call an event stands for. *)
Definition callOf (ev : RecordedEvent) : PianoCall :=
  if isPress ev then PressKey (note ev) else ReleaseKey (note ev).

(** Array order is chronological: an event never has a smaller offset than
    one recorded before it. *)
Definition chronological (rec : list RecordedEvent) : Prop :=
  ∀ (i j : nat) ev1 ev2, (i ≤ j)%nat →
    rec !! i = Some ev1 → rec !! j = Some ev2 → (timestamp ev1 ≤ timestamp ev2)%Z.

(** During a session the recorded offsets are in order and none exceeds
    the time elapsed since the session began. *)
Definition session_inv (w : World) : Prop :=
  chronological (recordedNotes (engine w)) ∧
  Forall (λ ev, (timestamp ev ≤ now w - startTime (engine w))%Z)
         (recordedNotes (engine w)).

(** The sink call a key event makes. *)
Definition keyCall (k : KeyEvent) : PianoCall :=
  let '(_, n, p) := k in
  if p then PressKey n else ReleaseKey n.

(** The time elapsed since the session began at each key event, the
    session being [since] milliseconds old before the first of them. *)
Fixpoint offsets (since : Z) (keys : list KeyEvent) : list Z :=
  match keys with
  | [] => []
  | (dt, _, _) :: rest =>
      (since + Z.of_nat dt)%Z :: offsets (since + Z.of_nat dt)%Z rest
  end.

(** Timers that fire exactly when asked, in a program that takes no time
    to run. *)
Definition ideal (tm : Timing) : Prop :=
  ∀ i, elapsed tm i = 0%nat ∧ lateness tm i = 0%nat.

End RecordingEngine.

(** * The composer *)

Module AIComposer.

(** ** The musical theory database *)

(** [this.musicTheory.chordProgressions]. *)
Definition chordProgressions : list (string * list (list string)) :=
  [ ("happy", [["C4"; "E4"; "G4"]; ["F4"; "A4"; "C5"]; ["G4"; "B4"; "D5"]; ["C4"; "E4"; "G4"]]);
    ("sad", [["C4"; "D#4"; "G4"]; ["G#4"; "C5"; "D#5"]; ["F4"; "G#4"; "C5"]; ["C4"; "D#4"; "G4"]]);
    ("peaceful", [["C4"; "E4"; "G4"]; ["G4"; "B4"; "D5"]; ["A4"; "C5"; "E5"]; ["F4"; "A4"; "C5"]]);
    ("energetic", [["C4"; "E4"; "G4"]; ["D4"; "F#4"; "A4"]; ["G4"; "B4"; "D5"]; ["C4"; "E4"; "G4"]]);
    ("mysterious", [["C4"; "D#4"; "F#4"]; ["D4"; "F4"; "G#4"]; ["C4"; "E4"; "G#4"]; ["C4"; "D#4"; "F#4"]]);
    ("romantic", [["C4"; "E4"; "G4"]; ["A4"; "C5"; "E5"]; ["F4"; "A4"; "C5"]; ["G4"; "B4"; "D5"]]);
    ("epic", [["C4"; "E4"; "G4"]; ["D4"; "F#4"; "A4"]; ["E4"; "G#4"; "B4"]; ["C4"; "E4"; "G4"]]) ].

(** [this.musicTheory.scales]. *)
Definition scales : list (string * list string) :=
  [ ("major", ["C4"; "D4"; "E4"; "F4"; "G4"; "A4"; "B4"; "C5"; "D5"; "E5"]);
    ("minor", ["C4"; "D4"; "D#4"; "F4"; "G4"; "G#4"; "A#4"; "C5"; "D5"; "D#5"]);
    ("pentatonic", ["C4"; "D4"; "E4"; "G4"; "A4"; "C5"; "D5"; "E5"]);
    ("blues", ["C4"; "D#4"; "F4"; "F#4"; "G4"; "A#4"; "C5"; "D#5"]);
    ("harmonic", ["C4"; "D4"; "D#4"; "F4"; "G4"; "G#4"; "B4"; "C5"]);
    ("chromatic", ["C4"; "C#4"; "D4"; "D#4"; "E4"; "F4"; "F#4"; "G4"; "G#4"; "A4"; "A#4"; "B4"; "C5"]) ].

(** [this.musicTheory.rhythms], in milliseconds. *)
Definition rhythms : list (string * list Z) :=
  [ ("slow", [800; 1200; 800; 1600]);
    ("moderate", [400; 600; 400; 800]);
    ("fast", [200; 300; 200; 400]);
    ("flowing", [500; 500; 500; 500]);
    ("syncopated", [300; 200; 500; 400]) ]%Z.

(** Property access on an object literal with string keys; [None] is
    [undefined].  Only the keys the literal lists are looked up: the
    members every object inherits from [Object.prototype] (their names are
    [inheritedKeys] below) are not in the model, so [prop obj key] is
    [obj[key]] at every key but those. *)
Fixpoint prop {A : Type} (obj : list (string * A)) (key : string) : option A :=
  match obj with
  | [] => None
  | (k, v) :: rest => if String.eqb k key then Some v else prop rest key
  end.

(** An entry of [this.moodConfigs]. *)
Record MoodConfig := mkMood {
  name : string;
  scale : string;
  progression : string;
  rhythm : string;
  tempo : Z;
  dynamics : string;
  pattern : string;
  description : string
}.

(** [this.moodConfigs]. *)
Definition moodConfigs : list (string * MoodConfig) :=
  [ ("spring", mkMood "🌸 Spring Blossom" "pentatonic" "happy" "moderate" 450 "light" "ascending"
       "Bright, uplifting melody with gentle flowing notes");
    ("summer", mkMood "☀️ Summer Joy" "major" "energetic" "fast" 350 "bright" "playful"
       "Energetic, joyful composition with vibrant rhythms");
    ("autumn", mkMood "🍂 Autumn Melancholy" "minor" "sad" "slow" 600 "mellow" "descending"
       "Melancholic, reflective melody with falling notes");
    ("winter", mkMood "❄️ Winter Serenity" "harmonic" "peaceful" "slow" 700 "soft" "sparse"
       "Serene, crystalline notes creating peaceful atmosphere");
    ("rain", mkMood "🌧️ Rainy Day" "blues" "sad" "flowing" 500 "gentle" "cascading"
       "Gentle, flowing melody like raindrops falling");
    ("storm", mkMood "⛈️ Thunderstorm" "chromatic" "mysterious" "syncopated" 300 "intense" "chaotic"
       "Dramatic, intense composition with powerful dynamics");
    ("sunrise", mkMood "🌅 Sunrise Hope" "major" "happy" "slow" 550 "building" "ascending"
       "Gradually brightening melody symbolizing new beginnings");
    ("night", mkMood "🌙 Peaceful Night" "pentatonic" "peaceful" "slow" 800 "whisper" "gentle"
       "Calm, soothing notes creating tranquil nighttime ambiance");
    ("joy", mkMood "😊 Pure Joy" "major" "happy" "fast" 300 "bright" "jumping"
       "Exuberant, uplifting melody full of happiness");
    ("sadness", mkMood "😢 Deep Sadness" "minor" "sad" "slow" 900 "soft" "descending"
       "Deeply emotional, sorrowful melody with heavy heart");
    ("romantic", mkMood "💕 Romantic Love" "major" "romantic" "moderate" 500 "warm" "flowing"
       "Tender, passionate melody expressing deep affection");
    ("epic", mkMood "⚔️ Epic Adventure" "major" "epic" "syncopated" 400 "powerful" "heroic"
       "Grand, heroic composition with powerful progressions") ]%Z.

(** ** [analyzeMood] *)

(** [String.prototype.toLowerCase] on the ASCII letters; other characters
    are left as they are. *)
Definition lower_ascii (c : Ascii.ascii) : Ascii.ascii :=
  let n := Ascii.nat_of_ascii c in
  if ((65 <=? n) && (n <=? 90))%nat then Ascii.ascii_of_nat (n + 32) else c.

Fixpoint toLowerCase (s : string) : string :=
  match s with
  | EmptyString => EmptyString
  | String c rest => String (lower_ascii c) (toLowerCase rest)
  end.

(** [text.includes(word)]. *)
Fixpoint includes (text word : string) : bool :=
  if String.prefix word text then true
  else match text with
       | EmptyString => false
       | String _ rest => includes rest word
       end.

(** The [keywords] literal of [analyzeMood]; [Object.entries] walks it in
    this order. *)
Definition keywords : list (string * list string) :=
  [ ("spring", ["spring"; "bloom"; "flower"; "fresh"; "renewal"]);
    ("summer", ["summer"; "sun"; "bright"; "warm"; "vibrant"]);
    ("autumn", ["autumn"; "fall"; "melancholy"; "nostalgic"; "leaves"]);
    ("winter", ["winter"; "snow"; "cold"; "serene"; "quiet"]);
    ("rain", ["rain"; "drizzle"; "wet"; "drops"]);
    ("storm", ["storm"; "thunder"; "lightning"; "intense"; "dramatic"]);
    ("sunrise", ["sunrise"; "dawn"; "morning"; "hope"; "beginning"]);
    ("night", ["night"; "evening"; "dark"; "peaceful"; "calm"]);
    ("joy", ["joy"; "happy"; "cheerful"; "excited"; "celebration"]);
    ("sadness", ["sad"; "sorrow"; "grief"; "lonely"; "depressed"]);
    ("romantic", ["love"; "romantic"; "passion"; "tender"; "affection"]);
    ("epic", ["epic"; "heroic"; "grand"; "adventure"; "battle"]) ].

(** [words.filter(word => text.includes(word)).length]. *)
Definition score (text : string) (words : list string) : nat :=
  length (List.filter (includes text) words).

(** The loop body: [(bestMatch, maxScore)] after one more table entry. *)
Definition scan (text : string) (acc : string * nat) (entry : string * list string)
    : string * nat :=
  let '(bestMatch, maxScore) := acc in
  let '(mood, words) := entry in
  if (maxScore <? score text words)%nat then (mood, score text words)
  else (bestMatch, maxScore).

Definition bestOf (table : list (string * list string)) (text : string) : string * nat :=
  foldl (scan text) ("peaceful", 0%nat) table.

Definition analyzeMood (moodText : string) : string :=
  let text := toLowerCase moodText in
  fst (bestOf keywords text).

(** ** [generateMelody] *)

(** A value read from a scale: a note identifier, or [None] for
    [undefined]. *)
Definition scaleAt (scale : list string) (i : Z) : option string :=
  if (i <? 0)%Z then None else scale !! Z.to_nat i.

(** The melody under construction, with the indices at which the scale was
    read to build it. *)
Record Gen := mkGen { reads : list Z; melody : list (option string) }.

Definition emptyGen : Gen := mkGen [] [].

(** [melody.push(scale[i])]. *)
Definition pushAt (scale : list string) (g : Gen) (i : Z) : Gen :=
  mkGen (reads g ++ [i]) (melody g ++ [scaleAt scale i]).

(** [scale.length]. *)
Definition len (scale : list string) : Z := Z.of_nat (length scale).

(** Truthiness of a value read from a scale, for [scale[9] || scale[7]]. *)
Definition truthyNote (v : option string) : bool :=
  match v with
  | Some (String _ _) => true
  | _ => false
  end.

(** [a > b] on the numbers drawn by [Math.random()]. *)
Definition Qgtb (a b : Q) : bool := negb (Qle_bool a b).

(** The cases of the [switch]; [rnd k] is the value of the [k]-th call of
    [Math.random()] made by the invocation. *)

(** [case 'ascending']. *)
Definition ascending (scale : list string) : Gen :=
  foldl (λ g i, pushAt scale g (Z.min (Z.of_nat i) (len scale - 1))) emptyGen (seq 0 8).

(** [case 'descending']: [i] runs from 7 down to 0. *)
Definition descending (scale : list string) : Gen :=
  foldl (λ g i, pushAt scale g (Z.min (Z.of_nat i) (len scale - 1))) emptyGen
        (reverse (seq 0 8)).

(** [case 'playful']. *)
Definition playful (scale : list string) (rnd : nat -> Q) : Gen :=
  foldl (λ g i,
           let jump := (Qfloor (rnd i * 4) - 2)%Z in
           let index := Z.max 0 (Z.min (len scale - 1) (Z.of_nat i + jump)) in
           pushAt scale g index)
        emptyGen (seq 0 8).

(** [case 'cascading'], [case 'chaotic'], [case 'jumping'] and [default],
    which have the same body. *)
Definition randomNotes (scale : list string) (rnd : nat -> Q) : Gen :=
  foldl (λ g i,
           let index := Qfloor (rnd i * inject_Z (len scale)) in
           pushAt scale g index)
        emptyGen (seq 0 8).

(** [case 'gentle'] and [case 'flowing']: one step of the loop, then the
    loop from the middle of the scale. *)
Definition walkStep (scale : list string) (rnd : nat -> Q) (st : Gen * Z) (i : nat)
    : Gen * Z :=
  let '(g, currentIndex) := st in
  let g' := pushAt scale g currentIndex in
  let moved := (currentIndex + (if Qgtb (rnd i) (5 # 10) then 1 else -1))%Z in
  (g', Z.max 0 (Z.min (len scale - 1) moved)).

Definition flowing (scale : list string) (rnd : nat -> Q) : Gen :=
  fst (foldl (walkStep scale rnd) (emptyGen, (len scale / 2)%Z) (seq 0 8)).

(** [case 'heroic']: the arguments of the first [push] are evaluated from
    left to right, [scale[7]] being read again only when [scale[9]] is
    falsy. *)
Definition heroic (scale : list string) : Gen :=
  let g1 := foldl (pushAt scale) emptyGen [0; 2; 4; 7]%Z in
  let top := scaleAt scale 9 in
  let g2 := if truthyNote top
            then mkGen (reads g1 ++ [9%Z]) (melody g1 ++ [top])
            else mkGen (reads g1 ++ [9%Z; 7%Z]) (melody g1 ++ [scaleAt scale 7]) in
  foldl (pushAt scale) g2 [7; 4; 2; 0]%Z.

(** [case 'sparse']. *)
Definition sparse (scale : list string) : Gen :=
  foldl (λ g i, pushAt scale g (Z.of_nat i * 2)) emptyGen (seq 0 4).

(** The [switch] on [config.pattern]. *)
Definition generateOn (scale : list string) (pattern : string) (rnd : nat -> Q) : Gen :=
  if String.eqb pattern "ascending" then ascending scale
  else if String.eqb pattern "descending" then descending scale
  else if String.eqb pattern "playful" then playful scale rnd
  else if String.eqb pattern "cascading" then randomNotes scale rnd
  else if String.eqb pattern "chaotic" then randomNotes scale rnd
  else if String.eqb pattern "gentle" then flowing scale rnd
  else if String.eqb pattern "flowing" then flowing scale rnd
  else if String.eqb pattern "jumping" then randomNotes scale rnd
  else if String.eqb pattern "heroic" then heroic scale
  else if String.eqb pattern "sparse" then sparse scale
  else randomNotes scale rnd.

(** [generateMelody(config)].  [None] stands for the [TypeError] raised
    when [config.scale] names no scale, every case reading [scale.length]
    or [scale[0]]. *)
Definition generateTrace (config : MoodConfig) (rnd : nat -> Q) : option Gen :=
  match prop scales (scale config) with
  | Some scale => Some (generateOn scale (pattern config) rnd)
  | None => None
  end.

Definition generateMelody (config : MoodConfig) (rnd : nat -> Q)
    : option (list (option string)) :=
  melody <$> generateTrace config rnd.

(** ** The composition loop *)

(** [this.currentComposition].  A field is [None] when the table lookup
    that fills it yields [undefined]. *)
Record Composition := mkComposition {
  comp_melody : list (option string);
  comp_chords : option (list (list string));
  comp_rhythmPattern : option (list Z);
  comp_tempo : Z
}.

(** A cursor of [playComposition]: an array index, or [None] for the [NaN]
    that [% 0] produces. *)
Definition Cursor : Type := option nat.

(** [(cursor + 1) % length]. *)
Definition advanceCursor (c : Cursor) (length : nat) : Cursor :=
  match c with
  | Some i => if (length =? 0)%nat then None else Some ((i + 1) mod length)%nat
  | None => None
  end.

(** [array[cursor]]. *)
Definition atCursor {A : Type} (l : list A) (c : Cursor) : option A :=
  match c with
  | Some i => l !! i
  | None => None
  end.

(** The functions handed to [setTimeout]: the loop's [playNextNote] with
    the cursors its closure holds, the delayed press of a chord note, and
    the release of the melody note. *)
Inductive Callback :=
| PlayNextNote (melodyIndex chordIndex rhythmIndex : Cursor)
| PressChordNote (chordNote : string)
| ReleaseNote (note : option string).

(** A pending timer: its handle, the delay requested in milliseconds and
    its callback. *)
Record Timer := mkTimer { timerId : nat; delay : Q; callback : Callback }.

(** A call made on [this.piano]; the argument is [None] when the composer
    passes [undefined]. *)
Inductive PianoCall :=
| PressKey (note : option string)
| ReleaseKey (note : option string).

(** The composer's fields, the window's pending timers with the next
    handle to be issued (handles are positive), and the calls received by
    the piano. *)
Record World := mkWorld {
  isPlaying : bool;
  intervalId : option nat;
  currentMood : option MoodConfig;
  currentComposition : option Composition;
  timers : list Timer;
  nextTimerId : nat;
  pianoCalls : list PianoCall
}.

(** The constructor's state, in a window that has issued no timer yet. *)
Definition init : World :=
  {| isPlaying := false; intervalId := None; currentMood := None;
     currentComposition := None; timers := []; nextTimerId := 1;
     pianoCalls := [] |}.

(** [setTimeout(callback, delay)], returning the handle. *)
Definition setTimeout (cb : Callback) (d : Q) (w : World) : nat * World :=
  (nextTimerId w,
   {| isPlaying := isPlaying w; intervalId := intervalId w;
      currentMood := currentMood w; currentComposition := currentComposition w;
      timers := timers w ++ [mkTimer (nextTimerId w) d cb];
      nextTimerId := S (nextTimerId w); pianoCalls := pianoCalls w |}).

(** [clearTimeout(id)]. *)
Definition clearTimeout (id : nat) (w : World) : World :=
  {| isPlaying := isPlaying w; intervalId := intervalId w;
     currentMood := currentMood w; currentComposition := currentComposition w;
     timers := filter (λ t, timerId t ≠ id) (timers w);
     nextTimerId := nextTimerId w; pianoCalls := pianoCalls w |}.

Definition callPiano (c : PianoCall) (w : World) : World :=
  {| isPlaying := isPlaying w; intervalId := intervalId w;
     currentMood := currentMood w; currentComposition := currentComposition w;
     timers := timers w; nextTimerId := nextTimerId w;
     pianoCalls := pianoCalls w ++ [c] |}.

Definition with_intervalId (id : option nat) (w : World) : World :=
  {| isPlaying := isPlaying w; intervalId := id;
     currentMood := currentMood w; currentComposition := currentComposition w;
     timers := timers w; nextTimerId := nextTimerId w;
     pianoCalls := pianoCalls w |}.

(** [stop()].  A handle is truthy when it is not zero. *)
Definition stop (w : World) : World :=
  let w1 := {| isPlaying := false; intervalId := intervalId w;
               currentMood := currentMood w;
               currentComposition := currentComposition w;
               timers := timers w; nextTimerId := nextTimerId w;
               pianoCalls := pianoCalls w |} in
  let w2 := match intervalId w1 with
            | Some (S n) => with_intervalId None (clearTimeout (S n) w1)
            | _ => w1
            end in
  {| isPlaying := isPlaying w2; intervalId := intervalId w2;
     currentMood := None; currentComposition := currentComposition w2;
     timers := timers w2; nextTimerId := nextTimerId w2;
     pianoCalls := pianoCalls w2 |}.

(** The delay [setTimeout] is given for a duration read from the rhythm:
    an [undefined] duration makes the delay [NaN], which a timer takes as
    zero. *)
Definition tickDelay (duration : option Z) : Q :=
  match duration with
  | Some d => inject_Z d
  | None => 0
  end.

Definition releaseDelay (duration : option Z) : Q :=
  match duration with
  | Some d => inject_Z d * (8 # 10)
  | None => 0
  end.

(** The constant the draw is compared with in [Math.random() > 0.7]. *)
Definition chordThreshold : Q := 7 # 10.

(** The chord notes scheduled by [chord.forEach]: those that differ from
    the melody note, each 50 ms later. *)
Definition scheduleChord (note : option string) (chord : list string) (w : World)
    : World :=
  foldl (λ acc chordNote,
           if bool_decide (Some chordNote ≠ note)
           then snd (setTimeout (PressChordNote chordNote) 50 acc)
           else acc)
        w chord.

(** [playNextNote], the closure of [playComposition], run with the cursors
    it holds; [r] is the value [Math.random()] returns in this tick.  Where
    JavaScript raises a [TypeError] (no composition, no chord table, no
    chord under the cursor, no rhythm table) the tick ends there and the
    world keeps what was done before. *)
Definition playNextNote (melodyIndex chordIndex rhythmIndex : Cursor) (r : Q)
    (w : World) : World :=
  if negb (isPlaying w) then w
  else
    match currentComposition w with
    | None => w
    | Some comp =>
        let note := mjoin (atCursor (comp_melody comp) melodyIndex) in
        let w1 := callPiano (PressKey note) w in
        let chordStep :=
          if Qgtb r chordThreshold then
            match comp_chords comp with
            | None => None
            | Some chords =>
                match atCursor chords chordIndex with
                | None => None
                | Some chord =>
                    Some (scheduleChord note chord w1,
                          advanceCursor chordIndex (length chords))
                end
            end
          else Some (w1, chordIndex) in
        match chordStep, comp_rhythmPattern comp with
        | Some (w2, chordIndex'), Some rhythmPattern =>
            let duration := atCursor rhythmPattern rhythmIndex in
            let w3 := snd (setTimeout (ReleaseNote note) (releaseDelay duration) w2) in
            let melodyIndex' := advanceCursor melodyIndex (length (comp_melody comp)) in
            let rhythmIndex' := advanceCursor rhythmIndex (length rhythmPattern) in
            let '(id, w4) :=
              setTimeout (PlayNextNote melodyIndex' chordIndex' rhythmIndex')
                         (tickDelay duration) w3 in
            with_intervalId (Some id) w4
        | Some (w2, _), None => w2
        | None, _ => w1
        end
    end.

(** [playComposition()]: fresh cursors, first tick at once. *)
Definition playComposition (r : Q) (w : World) : World :=
  playNextNote (Some 0%nat) (Some 0%nat) (Some 0%nat) r w.

(** [compose(moodKey)]; [rnd] feeds [generateMelody] and [r] the first
    tick.  When [generateMelody] raises, the world keeps the fields set
    before the call. *)
Definition compose (moodKey : string) (rnd : nat -> Q) (r : Q) (w : World) : World :=
  let w1 := if isPlaying w then stop w else w in
  match prop moodConfigs moodKey with
  | None => w1
  | Some config =>
      let w2 := {| isPlaying := true; intervalId := intervalId w1;
                   currentMood := Some config;
                   currentComposition := currentComposition w1;
                   timers := timers w1; nextTimerId := nextTimerId w1;
                   pianoCalls := pianoCalls w1 |} in
      match generateMelody config rnd with
      | None => w2
      | Some melody =>
          let composition :=
            {| comp_melody := melody;
               comp_chords := prop chordProgressions (progression config);
               comp_rhythmPattern := prop rhythms (rhythm config);
               comp_tempo := tempo config |} in
          playComposition r
            {| isPlaying := isPlaying w2; intervalId := intervalId w2;
               currentMood := currentMood w2;
               currentComposition := Some composition;
               timers := timers w2; nextTimerId := nextTimerId w2;
               pianoCalls := pianoCalls w2 |}
      end
  end.

(** A pending timer fires: it leaves the pending list and its callback
    runs.  A handle that is not pending fires nothing. *)
Definition runCallback (cb : Callback) (r : Q) (w : World) : World :=
  match cb with
  | PlayNextNote m c k => playNextNote m c k r w
  | PressChordNote chordNote => callPiano (PressKey (Some chordNote)) w
  | ReleaseNote note => callPiano (ReleaseKey note) w
  end.

Definition fire (id : nat) (r : Q) (w : World) : World :=
  match List.find (λ t, (timerId t =? id)%nat) (timers w) with
  | None => w
  | Some t => runCallback (callback t) r (clearTimeout id w)
  end.

(** What happens to a composer: calls of [compose] and [stop] from the
    controller, and pending timers firing in between. *)
Inductive Event :=
| Compose (moodKey : string) (rnd : nat -> Q) (r : Q)
| Stop
| Fire (id : nat) (r : Q).

Definition step (w : World) (ev : Event) : World :=
  match ev with
  | Compose moodKey rnd r => compose moodKey rnd r w
  | Stop => stop w
  | Fire id r => fire id r w
  end.

Definition run (evs : list Event) : World := foldl step init evs.

(** The pending timers that would run a next tick. *)
Definition isTick (t : Timer) : bool :=
  match callback t with
  | PlayNextNote _ _ _ => true
  | _ => false
  end.

Definition pendingTicks (w : World) : list Timer :=
  filter (λ t, isTick t = true) (timers w).

(** The timers that a run of [setTimeout] calls creates, the first of them
    under the handle [first]. *)
Fixpoint stamp (first : nat) (requests : list (Q * Callback)) : list Timer :=
  match requests with
  | [] => []
  | (d, cb) :: rest => mkTimer first d cb :: stamp (S first) rest
  end.

(** ** Predicates of the statements below *)

(** No keyword of any mood occurs in the (lowercased) text. *)
Definition keywordFree (text : string) : Prop :=
  Forall (λ entry : string * list string, score text entry.2 = 0%nat) keywords.

(** Every value [Math.random()] returns lies in [0, 1). *)
Definition validDraws (rnd : nat → Q) : Prop :=
  ∀ k, (0 <= rnd k)%Q ∧ (rnd k < 1)%Q.

(** Every read of the scale is within its bounds, and the melody is made of
    the values read. *)
Definition inBounds (scale : list string) (g : Gen) : Prop :=
  Forall (λ i, (0 ≤ i < len scale)%Z) (reads g) ∧
  melody g = scaleAt scale <$> reads g.

(** The requests [chord.forEach] makes. *)
Definition chordRequests (note : option string) (chord : list string)
    : list (Q * Callback) :=
  (λ c, (50%Q, PressChordNote c)) <$> filter (λ c, Some c ≠ note) chord.

(** Handles are positive; a composer that is not playing has no pending
    tick; and a pending tick is alone and is the one [intervalId] names. *)
Definition loop_inv (w : World) : Prop :=
  nextTimerId w ≠ 0%nat ∧
  (isPlaying w = false → pendingTicks w = []) ∧
  (pendingTicks w = [] ∨
   ∃ t, pendingTicks w = [t] ∧ intervalId w = Some (timerId t) ∧ timerId t ≠ 0%nat).

(** A pending tick is ready for a composition when its cursors stand on a
    note of the melody, a chord of the progression and a duration of the
    rhythm. *)
Definition tickReady (comp : Composition) (t : Timer) : Prop :=
  ∃ chords rhythmPattern mi ci ri note chord duration,
    callback t = PlayNextNote (Some mi) (Some ci) (Some ri) ∧
    comp_chords comp = Some chords ∧
    comp_rhythmPattern comp = Some rhythmPattern ∧
    comp_melody comp !! mi = Some note ∧
    chords !! ci = Some chord ∧
    rhythmPattern !! ri = Some duration.

(** While the composer plays, it has a composition and every pending tick
    is ready for it. *)
Definition ready_inv (w : World) : Prop :=
  isPlaying w = true →
  ∃ comp, currentComposition w = Some comp ∧ Forall (tickReady comp) (pendingTicks w).

(** Consecutive indices differ by at most one. *)
Fixpoint smooth (l : list Z) : Prop :=
  match l with
  | a :: ((b :: _) as rest) => (-1 ≤ b - a ≤ 1)%Z ∧ smooth rest
  | _ => True
  end.

(** Every pending timer has a handle already issued, and the handle that
    [intervalId] holds belongs to no pending timer other than a next-tick
    timer. *)
Definition handles_inv (w : World) : Prop :=
  (∀ t, t ∈ timers w → (timerId t < nextTimerId w)%nat) ∧
  (∀ id, intervalId w = Some id →
         (id < nextTimerId w)%nat ∧
         ∀ t, t ∈ timers w → timerId t = id → isTick t = true).

(** An event other than a call of [compose]. *)
Definition noCompose (ev : Event) : Prop :=
  match ev with
  | Compose _ _ _ => False
  | _ => True
  end.

(** Text made of ASCII characters only.  On such text the browser's
    [toLowerCase] changes the letters A to Z and nothing else, which is
    what [toLowerCase] above does; text with other characters is outside
    the model. *)
Definition asciiText (s : string) : bool :=
  forallb (λ c, (Ascii.nat_of_ascii c <? 128)%nat) (String.list_ascii_of_string s).

(** [word] occurs in [text] as a substring. *)
Definition occurs (word text : string) : Prop :=
  ∃ before after, text = String.append before (String.append word after).

(** The names every object inherits from [Object.prototype].  Property
    access [obj[key]] finds a value at these keys although the object
    literal does not list them; [prop] looks among the listed keys only,
    and agrees with [obj[key]] at every other key. *)
Definition inheritedKeys : list string :=
  [ "constructor"; "hasOwnProperty"; "isPrototypeOf"; "propertyIsEnumerable";
    "toLocaleString"; "toString"; "valueOf"; "__proto__";
    "__defineGetter__"; "__defineSetter__"; "__lookupGetter__";
    "__lookupSetter__" ].

End AIComposer.

(** * The metronome *)

Module Metronome.

(** A repeating timer set by [setInterval]: its handle and its period in
    milliseconds. *)
Record Interval := mkInterval { handle : nat; period : Q }.

(** The metronome's fields, the window's active repeating timers with the
    next handle to be issued (handles are positive), and the number of
    clicks [tick()] has sounded. *)
Record World := mkWorld {
  isPlaying : bool;
  bpm : Q;
  intervalId : option nat;
  intervals : list Interval;
  nextHandle : nat;
  clicks : nat
}.

(** The constructor's state, in a window that has issued no timer yet. *)
Definition init : World :=
  {| isPlaying := false; bpm := 120; intervalId := None; intervals := [];
     nextHandle := 1; clicks := 0 |}.

(** [tick()]: one short click is sounded. *)
Definition tick (w : World) : World :=
  {| isPlaying := isPlaying w; bpm := bpm w; intervalId := intervalId w;
     intervals := intervals w; nextHandle := nextHandle w;
     clicks := S (clicks w) |}.

(** [start()]. *)
Definition start (w : World) : World :=
  if isPlaying w then w
  else
    let interval := ((60 / bpm w) * 1000)%Q in
    let w1 := tick {| isPlaying := true; bpm := bpm w; intervalId := intervalId w;
                      intervals := intervals w; nextHandle := nextHandle w;
                      clicks := clicks w |} in
    {| isPlaying := isPlaying w1; bpm := bpm w1;
       intervalId := Some (nextHandle w1);
       intervals := intervals w1 ++ [mkInterval (nextHandle w1) interval];
       nextHandle := S (nextHandle w1); clicks := clicks w1 |}.

(** [stop()].  A handle is truthy when it is not zero. *)
Definition stop (w : World) : World :=
  match intervalId w with
  | Some (S n) =>
      {| isPlaying := false; bpm := bpm w; intervalId := None;
         intervals := filter (λ iv, handle iv ≠ S n) (intervals w);
         nextHandle := nextHandle w; clicks := clicks w |}
  | _ =>
      {| isPlaying := false; bpm := bpm w; intervalId := intervalId w;
         intervals := intervals w; nextHandle := nextHandle w;
         clicks := clicks w |}
  end.

(** An active repeating timer comes due: [tick] runs and the timer stays
    active.  A handle that is not active fires nothing. *)
Definition fire (id : nat) (w : World) : World :=
  if bool_decide (id ∈ handle <$> intervals w) then tick w else w.

(** What happens to a metronome: [start] and [stop] from the controller,
    and repeating timers coming due in between. *)
Inductive Event :=
| Start
| Stop
| Fire (id : nat).

Definition step (w : World) (ev : Event) : World :=
  match ev with
  | Start => start w
  | Stop => stop w
  | Fire id => fire id w
  end.

Definition run (evs : list Event) : World := foldl step init evs.

(** Handles are positive; the tempo is the constructor's; a metronome that
    is not playing has no active timer, and one that is playing has
    exactly the timer [intervalId] names, with the period of its tempo. *)
Definition beat_inv (w : World) : Prop :=
  nextHandle w ≠ 0%nat ∧
  bpm w = 120%Q ∧
  (isPlaying w = false → intervals w = []) ∧
  (isPlaying w = true →
   ∃ id, id ≠ 0%nat ∧ intervalId w = Some id ∧
         intervals w = [mkInterval id ((60 / 120) * 1000)%Q]).

End Metronome.

(** * The piano controller *)

Module VirtualPiano.

(** [this.keyMap]. *)
Definition keyMap : list (string * string) :=
  [ ("A", "C4"); ("W", "C#4"); ("S", "D4"); ("E", "D#4"); ("D", "E4");
    ("F", "F4"); ("T", "F#4"); ("G", "G4"); ("Y", "G#4"); ("H", "A4");
    ("U", "A#4"); ("J", "B4"); ("K", "C5"); ("O", "C#5"); ("L", "D5");
    ("P", "D#5"); (";", "E5") ].

(** [String.prototype.toUpperCase] on the ASCII letters; other characters
    are left as they are. *)
Definition upper_ascii (c : Ascii.ascii) : Ascii.ascii :=
  let n := Ascii.nat_of_ascii c in
  if ((97 <=? n) && (n <=? 122))%nat then Ascii.ascii_of_nat (n - 32) else c.

Fixpoint toUpperCase (s : string) : string :=
  match s with
  | EmptyString => EmptyString
  | String c rest => String (upper_ascii c) (toUpperCase rest)
  end.

(** The fields of a keyboard event that the handlers read. *)
Record KeyboardEvent := mkKey { key : string; code : string }.

(** The controller's audio engine, its recorder (with the clock and the
    log of calls of [pressKey] and [releaseKey]), the set of keys held
    down and the count of notes played.  The page, the avatar, the
    metronome and the composer are driven from here but keep no state of
    the controller. *)
Record Piano := mkPiano {
  audioEngine : PianoAudioEngine.Engine;
  recorder : RecordingEngine.World;
  pressedKeys : list string;
  notesPlayed : nat
}.

(** The constructor's state, at clock value [t0]. *)
Definition init (t0 : Z) : Piano :=
  {| audioEngine := PianoAudioEngine.init;
     recorder := RecordingEngine.mkWorld RecordingEngine.init t0 [];
     pressedKeys := []; notesPlayed := 0 |}.

(** [pressKey(note)]: the note sounds, the recorder is told, the count goes
    up. *)
Definition pressKey (note : string) (p : Piano) : Piano :=
  {| audioEngine := PianoAudioEngine.press note (audioEngine p);
     recorder := RecordingEngine.pressKey note (recorder p);
     pressedKeys := pressedKeys p;
     notesPlayed := S (notesPlayed p) |}.

(** [releaseKey(note)]. *)
Definition releaseKey (note : string) (p : Piano) : Piano :=
  {| audioEngine := PianoAudioEngine.release note (audioEngine p);
     recorder := RecordingEngine.releaseKey note (recorder p);
     pressedKeys := pressedKeys p;
     notesPlayed := notesPlayed p |}.

(** [toggleSustain()]. *)
Definition toggleSustain (p : Piano) : Piano :=
  let isActive := negb (PianoAudioEngine.sustainActive (audioEngine p)) in
  {| audioEngine := PianoAudioEngine.setSustain isActive (audioEngine p);
     recorder := recorder p; pressedKeys := pressedKeys p;
     notesPlayed := notesPlayed p |}.

(** [toggleRecording()]. *)
Definition toggleRecording (p : Piano) : Piano :=
  {| audioEngine := audioEngine p;
     recorder := if RecordingEngine.recording (RecordingEngine.engine (recorder p))
                 then RecordingEngine.stopRecording (recorder p)
                 else RecordingEngine.startRecording (recorder p);
     pressedKeys := pressedKeys p; notesPlayed := notesPlayed p |}.

Definition with_pressedKeys (keys : list string) (p : Piano) : Piano :=
  {| audioEngine := audioEngine p; recorder := recorder p;
     pressedKeys := keys; notesPlayed := notesPlayed p |}.

(** [handleKeyDown(e)]. *)
Definition handleKeyDown (e : KeyboardEvent) (p : Piano) : Piano :=
  let k := toUpperCase (key e) in
  if bool_decide (k ∈ pressedKeys p) then p
  else if String.eqb (code e) "Space" then
    if negb (PianoAudioEngine.sustainActive (audioEngine p))
    then toggleSustain p else p
  else
    match AIComposer.prop keyMap k with
    | Some note =>
        pressKey note (with_pressedKeys (PianoAudioEngine.set_add k (pressedKeys p)) p)
    | None => p
    end.

(** [handleKeyUp(e)]. *)
Definition handleKeyUp (e : KeyboardEvent) (p : Piano) : Piano :=
  let k := toUpperCase (key e) in
  if String.eqb (code e) "Space" then
    if PianoAudioEngine.sustainActive (audioEngine p)
    then toggleSustain p else p
  else
    match AIComposer.prop keyMap k with
    | Some note =>
        releaseKey note (with_pressedKeys (filter (λ x, x ≠ k) (pressedKeys p)) p)
    | None => p
    end.

End VirtualPiano.

(** * Properties of the audio engine *)

Module VoiceManager.
Import PianoAudioEngine.

(** ** The engine on a few inputs *)

Example press_then_release :
  sounding (run [Press "A4"; Release "A4"]) = [] ∧
  activeNotes (run [Press "A4"; Release "A4"]) !! "A4" = None.
Proof. by vm_compute. Qed.

Example release_under_sustain_keeps_sounding :
  osc <$> sounding (run [SetSustain true; Press "A4"; Release "A4"]) = [0%nat] ∧
  sustainedNotes (run [SetSustain true; Press "A4"; Release "A4"]) = ["A4"] ∧
  sounding (run [SetSustain true; Press "A4"; Release "A4"; SetSustain false]) = [].
Proof. by vm_compute. Qed.

Example retrigger_without_sustain :
  osc <$> liveVoices "C4" (run [Press "C4"; Press "C4"]) = [1%nat].
Proof. by vm_compute. Qed.

(** ** The flush performed by [setSustain(false)] *)

Lemma releaseSustained_fields e n :
  sustainActive (releaseSustained e n) = sustainActive e ∧
  sustainedNotes (releaseSustained e n) = sustainedNotes e ∧
  nextOsc (releaseSustained e n) = nextOsc e.
Proof. unfold releaseSustained. by destruct (activeNotes e !! n). Qed.

Lemma releaseSustained_same e n : activeNotes (releaseSustained e n) !! n = None.
Proof.
  unfold releaseSustained. destruct (activeNotes e !! n) eqn:E; simpl.
  - apply lookup_delete_eq.
  - done.
Qed.

Lemma releaseSustained_other e n m :
  n ≠ m → activeNotes (releaseSustained e n) !! m = activeNotes e !! m.
Proof.
  intros Hne. unfold releaseSustained. destruct (activeNotes e !! n); simpl.
  - by apply lookup_delete_ne.
  - done.
Qed.

Lemma releaseSustained_sounding e n x :
  x ∈ sounding (releaseSustained e n) → x ∈ sounding e.
Proof.
  unfold releaseSustained. destruct (activeNotes e !! n); simpl; [|done].
  rewrite list_elem_of_filter. tauto.
Qed.

Lemma releaseSustained_stops e n s :
  activeNotes e !! n = Some s → s ∉ sounding (releaseSustained e n).
Proof.
  intros E. unfold releaseSustained. rewrite E. simpl.
  rewrite list_elem_of_filter. tauto.
Qed.

Lemma flush_sounding l : ∀ e x,
  x ∈ sounding (foldl releaseSustained e l) → x ∈ sounding e.
Proof.
  induction l as [|n l IH]; intros e x; simpl; [done|].
  intros H. eapply releaseSustained_sounding, IH, H.
Qed.

Lemma flush_kept l : ∀ e m,
  m ∉ l → activeNotes (foldl releaseSustained e l) !! m = activeNotes e !! m.
Proof.
  induction l as [|n l IH]; intros e m Hm; simpl; [done|].
  apply not_elem_of_cons in Hm as [Hne Hm].
  rewrite IH by done. by apply releaseSustained_other.
Qed.

Lemma flush_removed l : ∀ e m,
  m ∈ l → activeNotes (foldl releaseSustained e l) !! m = None.
Proof.
  induction l as [|n l IH]; intros e m Hm; simpl.
  - by apply elem_of_nil in Hm.
  - destruct (decide (m ∈ l)) as [Hin|Hout]; [by apply IH|].
    apply elem_of_cons in Hm as [->|Hm]; [|done].
    rewrite flush_kept by done. apply releaseSustained_same.
Qed.

Lemma flush_stops l : ∀ e m s,
  m ∈ l → activeNotes e !! m = Some s → s ∉ sounding (foldl releaseSustained e l).
Proof.
  induction l as [|n l IH]; intros e m s Hm E; simpl.
  - by apply elem_of_nil in Hm.
  - destruct (decide (n = m)) as [->|Hne].
    + intros Hs. apply flush_sounding in Hs.
      by apply (releaseSustained_stops e m s).
    + apply elem_of_cons in Hm as [->|Hm]; [done|].
      apply (IH _ m); [done|]. by rewrite releaseSustained_other.
Qed.

Lemma flush_fields l : ∀ e,
  sustainActive (foldl releaseSustained e l) = sustainActive e ∧
  nextOsc (foldl releaseSustained e l) = nextOsc e.
Proof.
  induction l as [|n l IH]; intros e; simpl; [done|].
  destruct (IH (releaseSustained e n)) as [-> ->].
  destruct (releaseSustained_fields e n) as (-> & _ & ->). done.
Qed.

Lemma stopNote_pedal e n : pedal_inv e → pedal_inv (stopNote n e).
Proof.
  unfold pedal_inv, stopNote. intros H.
  destruct (sustainActive e) eqn:S; simpl.
  - by rewrite S.
  - destruct (activeNotes e !! n); simpl; rewrite ?S; auto.
Qed.

Lemma playNote_pedal e n : pedal_inv e → pedal_inv (fst (playNote n e)).
Proof.
  intros H. unfold playNote.
  destruct (negb (truthy (frequencyOf n))); [done|].
  destruct (frequencyOf n) as [f|]; [|done].
  set (e1 := if bool_decide _ then _ else _).
  assert (pedal_inv e1) as H1.
  { unfold e1. case_bool_decide; [by apply stopNote_pedal|done]. }
  simpl. exact H1.
Qed.

Lemma setSustain_pedal e b : pedal_inv (setSustain b e).
Proof. unfold pedal_inv, setSustain. destruct b; simpl; [done|auto]. Qed.

Lemma run_pedal ops : pedal_inv (run ops).
Proof.
  unfold run. induction ops as [|o ops IH] using rev_ind.
  - done.
  - rewrite foldl_app. simpl. destruct o; simpl.
    + by apply playNote_pedal.
    + by apply stopNote_pedal.
    + apply setSustain_pedal.
Qed.

(** C2.  After any sequence of presses, releases and pedal changes, a
    note is in the held set only while the pedal is down; and lifting the
    pedal is one transition after which the pedal is up, the held set is
    empty, every note that was held has no entry in the map of active
    notes and the sound it had there is no longer sounding, while the
    entries of the other notes are untouched. *)
Theorem sustain_off_flushes_held_notes (ops : list Op) :
  (∀ n, n ∈ sustainedNotes (run ops) → sustainActive (run ops) = true) ∧
  sustainActive (setSustain false (run ops)) = false ∧
  sustainedNotes (setSustain false (run ops)) = [] ∧
  (∀ n, n ∈ sustainedNotes (run ops) →
     activeNotes (setSustain false (run ops)) !! n = None ∧
     ∀ s, activeNotes (run ops) !! n = Some s →
          s ∉ sounding (setSustain false (run ops))) ∧
  (∀ n, n ∉ sustainedNotes (run ops) →
     activeNotes (setSustain false (run ops)) !! n = activeNotes (run ops) !! n).
Proof.
  set (e := run ops). repeat split.
  - intros n Hn. destruct (sustainActive e) eqn:S; [done|].
    pose proof (run_pedal ops S) as Hnil. fold e in Hnil.
    rewrite Hnil in Hn. by apply elem_of_nil in Hn.
  - unfold setSustain. simpl.
    by destruct (flush_fields (sustainedNotes e) (with_sustainActive false e)) as [-> _].
  - by apply (flush_removed (sustainedNotes e) (with_sustainActive false e)).
  - intros s E. by apply (flush_stops (sustainedNotes e) (with_sustainActive false e) n s).
  - intros n Hn. by apply (flush_kept (sustainedNotes e) (with_sustainActive false e)).
Qed.

(** ** Re-triggering a note *)

Lemma frequencyOf_truthy n f : frequencyOf n = Some f → truthy (Some f) = true.
Proof.
  unfold frequencyOf, noteFrequencies. cbn [lookup_note].
  repeat (destruct (String.eqb _ n); [intros [= <-]; reflexivity|]).
  discriminate.
Qed.

(** With the pedal up, pressing a note that already has a sound stops that
    sound and stores a fresh one. *)
Lemma retrigger_pedal_up e n f s :
  sustainActive e = false →
  frequencyOf n = Some f →
  activeNotes e !! n = Some s →
  (osc s < nextOsc e)%nat →
  (s ∉ sounding (press n e)) ∧
  activeNotes (press n e) !! n = Some (mkSound (nextOsc e) f) ∧
  (mkSound (nextOsc e) f ∈ sounding (press n e)).
Proof.
  intros S F A Hlt. unfold press, playNote.
  rewrite F, (frequencyOf_truthy n f F). simpl.
  rewrite bool_decide_eq_true_2 by (by rewrite A).
  unfold stopNote. rewrite S, A. simpl. repeat split.
  - rewrite elem_of_app, list_elem_of_filter, list_elem_of_singleton.
    intros [H|H]; [tauto|]. subst s. simpl in Hlt. lia.
  - apply lookup_insert_eq.
  - rewrite elem_of_app, list_elem_of_singleton. by right.
Qed.

(** With the pedal down, the sound a note already has is neither stopped
    nor reachable any more: the map entry is overwritten by the fresh
    sound and the note joins the held set. *)
Lemma retrigger_pedal_down e n f s :
  sustainActive e = true →
  frequencyOf n = Some f →
  activeNotes e !! n = Some s →
  s ∈ sounding e →
  (s ∈ sounding (press n e)) ∧
  activeNotes (press n e) !! n = Some (mkSound (nextOsc e) f) ∧
  (mkSound (nextOsc e) f ∈ sounding (press n e)) ∧
  (n ∈ sustainedNotes (press n e)).
Proof.
  intros S F A Hs. unfold press, playNote.
  rewrite F, (frequencyOf_truthy n f F). simpl.
  rewrite bool_decide_eq_true_2 by (by rewrite A).
  unfold stopNote. rewrite S. simpl. repeat split.
  - rewrite elem_of_app. by left.
  - apply lookup_insert_eq.
  - rewrite elem_of_app, list_elem_of_singleton. by right.
  - unfold set_add. case_decide; [done|].
    rewrite elem_of_app, list_elem_of_singleton. by right.
Qed.

(** C1, at the input where the code departs from it.  Pedal down, then C4
    pressed twice: two oscillators sound at C4's frequency, the map of
    active notes names only the second, and lifting the pedal stops the
    second alone, the first being left sounding. *)
Theorem retrigger_under_sustain_leaves_two_voices :
  osc <$> liveVoices "C4" (press "C4" (press "C4" (setSustain true init))) = [0; 1]%nat ∧
  osc <$> activeNotes (press "C4" (press "C4" (setSustain true init))) !! "C4" = Some 1%nat ∧
  osc <$> liveVoices "C4"
    (setSustain false (press "C4" (press "C4" (setSustain true init)))) = [0]%nat.
Proof. by vm_compute. Qed.

(** ** Unknown notes *)

(** Pressing an identifier that is not in the frequency table changes
    nothing. *)
Lemma press_unknown e u : frequencyOf u = None → playNote u e = (e, None).
Proof. intros F. unfold playNote. by rewrite F. Qed.

Lemma stopNote_keys e n : keys_known e → keys_known (stopNote n e).
Proof.
  unfold keys_known, stopNote. intros H m.
  destruct (sustainActive e); simpl; [apply H|].
  destruct (activeNotes e !! n) eqn:E; simpl; [|apply H].
  destruct (decide (n = m)) as [->|Hne].
  - rewrite lookup_delete_eq. by intros [? ?].
  - rewrite lookup_delete_ne by done. apply H.
Qed.

Lemma playNote_keys e n : keys_known e → keys_known (fst (playNote n e)).
Proof.
  intros H. unfold playNote.
  destruct (negb (truthy (frequencyOf n))); [done|].
  destruct (frequencyOf n) as [f|] eqn:F; [|done].
  set (e1 := if bool_decide _ then _ else _).
  assert (keys_known e1) as H1.
  { unfold e1. case_bool_decide; [by apply stopNote_keys|done]. }
  unfold keys_known. simpl. intros m. destruct (decide (n = m)) as [->|Hne].
  - by rewrite F.
  - rewrite lookup_insert_ne by done. apply H1.
Qed.

Lemma setSustain_keys e b : keys_known e → keys_known (setSustain b e).
Proof.
  unfold keys_known, setSustain. intros H m. destruct b; simpl; [apply H|].
  destruct (decide (m ∈ sustainedNotes e)) as [Hin|Hout].
  - rewrite (flush_removed (sustainedNotes e) (with_sustainActive false e)) by done.
    by intros [? ?].
  - rewrite (flush_kept (sustainedNotes e) (with_sustainActive false e)) by done.
    apply H.
Qed.

Lemma run_keys ops : keys_known (run ops).
Proof.
  unfold run. induction ops as [|o ops IH] using rev_ind.
  - intros n. simpl. rewrite lookup_empty. by intros [? ?].
  - rewrite foldl_app. simpl. destruct o; simpl.
    + by apply playNote_keys.
    + by apply stopNote_keys.
    + by apply setSustain_keys.
Qed.

(** With the pedal up, releasing an unknown identifier changes nothing. *)
Lemma release_unknown_pedal_up ops u :
  frequencyOf u = None → sustainActive (run ops) = false →
  release u (run ops) = run ops.
Proof.
  intros F S. unfold release, stopNote. rewrite S.
  destruct (activeNotes (run ops) !! u) eqn:E; [|done].
  destruct (run_keys ops u) as [f Hf]; [by rewrite E|]. congruence.
Qed.

(** C6, at the input where the code departs from it.  X9 is not in the
    frequency table; with the pedal down, releasing it puts it into the
    held set, which was empty. *)
Theorem release_unknown_under_sustain_is_held :
  frequencyOf "X9" = None ∧
  sustainedNotes (setSustain true init) = [] ∧
  sustainedNotes (release "X9" (setSustain true init)) = ["X9"].
Proof. by vm_compute. Qed.

End VoiceManager.

(** * Properties of recording and playback *)

Module EventRecorder.
Import RecordingEngine.

Local Open Scope Z_scope.

(** ** Recording sessions *)

Lemma chronological_snoc rec ev :
  chronological rec →
  Forall (λ e, timestamp e ≤ timestamp ev) rec →
  chronological (rec ++ [ev]).
Proof.
  intros Hc Hall i j e1 e2 Hij H1 H2.
  destruct (decide (j < length rec)%nat) as [Hj|Hj].
  - rewrite lookup_app_l in H1, H2 by lia. eauto.
  - assert (e2 = ev) as ->.
    { rewrite lookup_app_r in H2 by lia.
      destruct (j - length rec)%nat; simpl in H2; [congruence|].
      by rewrite lookup_nil in H2. }
    destruct (decide (i < length rec)%nat) as [Hi|Hi].
    + rewrite lookup_app_l in H1 by lia.
      rewrite Forall_forall in Hall. apply Hall.
      eapply list_elem_of_lookup_2, H1.
    + rewrite lookup_app_r in H1 by lia.
      destruct (i - length rec)%nat; simpl in H1; [|by rewrite lookup_nil in H1].
      injection H1 as <-. lia.
Qed.

Lemma keyEvent_inv w k : session_inv w → session_inv (keyEvent w k).
Proof.
  destruct k as [[dt n] p]. intros [Hc Hall].
  assert (Forall (λ ev, timestamp ev ≤ now w + Z.of_nat dt - startTime (engine w))
                 (recordedNotes (engine w))) as Hall'
    by (eapply Forall_impl; [exact Hall|]; simpl; intros; lia).
  unfold keyEvent, pressKey, releaseKey, recordNote.
  destruct p; simpl; destruct (recording (engine w)); simpl; (split; [|try done]).
  all: try done.
  all: try (apply chronological_snoc; [done|]; eapply Forall_impl; [exact Hall'|];
            simpl; intros; lia).
  all: apply Forall_app; split; [done|]; apply Forall_singleton; simpl; lia.
Qed.

Lemma session_chronological t0 keys :
  chronological (recordedNotes (engine (session t0 keys))) ∧
  recording (engine (session t0 keys)) = false.
Proof.
  unfold session. simpl. split; [|done].
  assert (session_inv (foldl keyEvent (startRecording (mkWorld init t0 [])) keys)) as [H _];
    [|exact H].
  induction keys as [|k keys IH] using rev_ind.
  - split; simpl; [|constructor]. intros i j e1 e2 _ H. by rewrite lookup_nil in H.
  - rewrite foldl_app. simpl. by apply keyEvent_inv.
Qed.

(** ** The playback loop *)

(** Outside a recording session the sink's tap on the recorder does
    nothing: one iteration sends the event's call to the sink, no earlier
    than the event's target time, and leaves the recorder as it was. *)
Lemma playEvent_idle tm anchor i ev w :
  recording (engine w) = false →
  ∃ t, anchor + timestamp ev ≤ t ∧ now w ≤ t ∧
       playEvent tm anchor i ev w = mkWorld (engine w) t (calls w ++ [(t, callOf ev)]).
Proof.
  intros R. unfold playEvent, callOf, pressKey, releaseKey, recordNote.
  set (w1 := advance _ w).
  set (w2 := if 0 <? _ then _ else _).
  assert (engine w2 = engine w ∧ calls w2 = calls w ∧
          anchor + timestamp ev ≤ now w2 ∧ now w ≤ now w2)
    as (E & C & T & M).
  { unfold w2. destruct (Z.ltb_spec 0 (anchor + timestamp ev - now w1));
      simpl; repeat split; try done; unfold w1 in *; simpl in *; lia. }
  exists (now w2). split; [done|]. split; [done|].
  destruct (isPress ev); simpl; rewrite E, R; simpl; unfold logCall; by rewrite E, C.
Qed.

Lemma playLoop_idle tm anchor : ∀ fuel i w,
  recording (engine w) = false →
  (length (recordedNotes (engine w)) - i ≤ fuel)%nat →
  ∃ w' fired,
    playLoop fuel tm anchor i w = Some w' ∧
    engine w' = engine w ∧
    calls w' = calls w ++ fired ∧
    snd <$> fired = callOf <$> drop i (recordedNotes (engine w)) ∧
    Forall2 (λ ev c, anchor + timestamp ev ≤ fst c)
            (drop i (recordedNotes (engine w))) fired.
Proof.
  induction fuel as [|fuel IH]; intros i w R Hfuel.
  - assert (recordedNotes (engine w) !! i = None) as Hnone
      by (apply lookup_ge_None; lia).
    exists w, []. simpl. rewrite Hnone, drop_ge by lia.
    rewrite app_nil_r. repeat split; constructor.
  - simpl. destruct (recordedNotes (engine w) !! i) as [ev|] eqn:L.
    + destruct (playEvent_idle tm anchor i ev w R) as (t & Ht & _ & ->).
      destruct (IH (S i) (mkWorld (engine w) t (calls w ++ [(t, callOf ev)])))
        as (w' & fired & -> & E & C & Hcalls & F); simpl; [done|lia|].
      simpl in *. exists w', ((t, callOf ev) :: fired).
      rewrite (drop_S _ _ _ L). repeat split.
      * done.
      * by rewrite C, <- app_assoc.
      * rewrite !fmap_cons. by rewrite Hcalls.
      * by constructor.
    + exists w, []. rewrite drop_ge by (by apply lookup_ge_None).
      rewrite app_nil_r. repeat split; constructor.
Qed.

(** X29.  Played back outside a recording session, with fuel for one
    iteration per recorded event, [playback] completes; on an empty
    recording the world is unchanged (nothing reaches the sink); otherwise
    the sink receives one call per recorded event, in array order, which is
    the chronological order of the offsets, [pressKey] for a press and
    [releaseKey] for a release, each made at a clock value not before the
    playback anchor plus the event's offset. *)
Theorem playback_contract (t0 : Z) (keys : list KeyEvent) (tm : Timing)
    (fuel : nat) (w : World) :
  engine w = engine (session t0 keys) →
  (length (recordedNotes (engine w)) ≤ fuel)%nat →
  ∃ w' fired,
    playback fuel tm w = Some w' ∧
    (recordedNotes (engine w) = [] → w' = w) ∧
    calls w' = calls w ++ fired ∧
    snd <$> fired = callOf <$> recordedNotes (engine w) ∧
    Forall2 (λ ev c, now w + timestamp ev ≤ fst c) (recordedNotes (engine w)) fired ∧
    chronological (recordedNotes (engine w)).
Proof.
  intros E Hfuel.
  destruct (session_chronological t0 keys) as [Hc R]. rewrite <- E in Hc, R.
  unfold playback.
  destruct (recordedNotes (engine w)) as [|ev rec] eqn:L.
  - exists w, []. simpl. rewrite app_nil_r. repeat split; done.
  - simpl.
    destruct (playLoop_idle tm (now w) fuel 0%nat w R) as (w' & fired & P & _ & C & Hcalls & F).
    { rewrite L. simpl in *. lia. }
    rewrite L in *. simpl in P. exists w', fired. repeat split; try done.
Qed.

Lemma playback_contract_witness :
  let keys := [(0%nat, "C4", true); (500%nat, "C4", false)] in
  let tm := mkTiming (λ _, 3%nat) (λ _, 1%nat) in
  engine (session 1000 keys) = engine (session 1000 keys) ∧
  (length (recordedNotes (engine (session 1000 keys))) ≤ 2)%nat ∧
  ∃ w' fired,
    playback 2 tm (session 1000 keys) = Some w' ∧
    (recordedNotes (engine (session 1000 keys)) = [] → w' = session 1000 keys) ∧
    calls w' = calls (session 1000 keys) ++ fired ∧
    snd <$> fired = callOf <$> recordedNotes (engine (session 1000 keys)) ∧
    Forall2 (λ ev c, now (session 1000 keys) + timestamp ev ≤ fst c)
            (recordedNotes (engine (session 1000 keys))) fired ∧
    chronological (recordedNotes (engine (session 1000 keys))).
Proof.
  intros keys tm. split; [reflexivity|]. split; [simpl; lia|].
  apply (playback_contract 1000 keys tm 2 (session 1000 keys));
    [reflexivity|simpl; lia].
Defined.

(** The recording of a C4 pressed at offset 0 and released at offset 500:
    whatever the scheduling delays, playback presses C4 and then releases
    it, the release not before 500 ms after the playback anchor. *)
Lemma playback_press_then_release (tm : Timing) (anchor recorded_at : Z) :
  ∃ t1 t2,
    playback 2 tm
      (mkWorld (mkEngine false [mkEvent "C4" 0 true; mkEvent "C4" 500 false] recorded_at)
               anchor []) =
    Some (mkWorld (mkEngine false [mkEvent "C4" 0 true; mkEvent "C4" 500 false] recorded_at)
                  t2 [(t1, PressKey "C4"); (t2, ReleaseKey "C4")]) ∧
    anchor ≤ t1 ∧ t1 ≤ t2 ∧ anchor + 500 ≤ t2.
Proof.
  unfold playback. simpl.
  match goal with
  | |- context [playEvent tm anchor 0 ?ev ?w] =>
      destruct (playEvent_idle tm anchor 0 ev w eq_refl) as (t1 & T1 & M1 & ->)
  end.
  simpl in *.
  match goal with
  | |- context [playEvent tm anchor 1 ?ev ?w] =>
      destruct (playEvent_idle tm anchor 1 ev w eq_refl) as (t2 & T2 & M2 & ->)
  end.
  simpl in *. exists t1, t2. repeat split; lia.
Qed.

(** The sink and the loop share the recorded array: played back while a
    recording session is open, every call made on the sink pushes one more
    event onto the array under iteration, and the loop does not end. *)
Lemma playLoop_while_recording tm anchor : ∀ fuel i w,
  recording (engine w) = true →
  (i < length (recordedNotes (engine w)))%nat →
  playLoop fuel tm anchor i w = None.
Proof.
  induction fuel as [|fuel IH]; intros i w R Hi; simpl;
    destruct (lookup_lt_is_Some_2 _ _ Hi) as [ev ->]; [done|].
  apply IH.
  - unfold playEvent, pressKey, releaseKey, recordNote.
    destruct (isPress ev), (0 <? _); simpl; by rewrite R.
  - unfold playEvent, pressKey, releaseKey, recordNote.
    destruct (isPress ev), (0 <? _); simpl; rewrite R; simpl;
      rewrite length_app; simpl; lia.
Qed.

(** C3.  The failing input: a session is open, C4 has been pressed once,
    and [playback] is started before [stopRecording].  The recording holds
    the one press.  The iteration that dispatches it calls the sink's
    [pressKey], which records the press again: the array under iteration
    now holds two events, the second at an offset that is not negative.
    Whatever the scheduling delays and however long the loop is given, it
    never reaches the end of the array: [playback] does not return. *)
Theorem playback_in_open_session (fuel : nat) (tm : Timing) :
  let w := pressKey "C4" (startRecording (mkWorld init 1000 [])) in
  recording (engine w) = true ∧
  recordedNotes (engine w) = [mkEvent "C4" 0 true] ∧
  (∃ t, 0 ≤ t ∧
        recordedNotes (engine (playEvent tm (now w) 0 (mkEvent "C4" 0 true) w)) =
          [mkEvent "C4" 0 true; mkEvent "C4" t true]) ∧
  playback fuel tm w = None.
Proof.
  intros w. split; [done|]. split; [done|]. split.
  - unfold playEvent. simpl.
    destruct (0 <? 1000 + 0 - (1000 + Z.of_nat (elapsed tm 0))); simpl;
      eexists; (split; [|reflexivity]); lia.
  - unfold playback. simpl.
    apply playLoop_while_recording; simpl; [done|lia].
Qed.

End EventRecorder.

(** * Properties of the composer: mood analysis *)

Module MoodAnalysis.
Import AIComposer.

Local Open Scope nat_scope.

Example analyzeMood_uppercase : analyzeMood "A HAPPY Sunrise, full of Hope" = "sunrise".
Proof. by vm_compute. Qed.

Example analyzeMood_no_keyword : analyzeMood "hello" = "peaceful".
Proof. by vm_compute. Qed.

(** The scan keeps the first entry that reaches the highest score, and
    keeps its starting value when no entry beats the starting score. *)
Lemma scan_first_max text b0 m0 table :
  let '(b, m) := foldl (scan text) (b0, m0) table in
  (b = b0 ∧ m = m0 ∧
   Forall (λ entry : string * list string, score text entry.2 ≤ m0) table) ∨
  (∃ i mood words,
     table !! i = Some (mood, words) ∧ b = mood ∧ m = score text words ∧ m0 < m ∧
     ∀ j mood' words', table !! j = Some (mood', words') →
       score text words' ≤ m ∧ (j < i → score text words' < m)).
Proof.
  induction table as [|[mood words] table IH] using rev_ind; simpl.
  - left. repeat split. constructor.
  - rewrite foldl_app. simpl.
    destruct (foldl (scan text) (b0, m0) table) as [b m]. simpl.
    destruct (Nat.ltb_spec m (score text words)) as [Hlt|Hge].
    + right. exists (length table), mood, words.
      rewrite lookup_app_r, Nat.sub_diag by lia. repeat split; try done.
      * destruct IH as [(_ & -> & _)|(_ & _ & _ & _ & _ & _ & ? & _)]; lia.
      * destruct (decide (j < length table)) as [Hj|Hj].
        -- rewrite lookup_app_l in H by done.
           destruct IH as [(_ & -> & Hall)|(i & mo & ws & _ & _ & -> & _ & Hmax)].
           ++ rewrite Forall_forall in Hall.
              apply list_elem_of_lookup_2, Hall in H. simpl in H. lia.
           ++ apply Hmax in H as [? _]. lia.
        -- rewrite lookup_app_r in H by lia.
           destruct (j - length table) as [|k]; simpl in H.
           ++ injection H as _ <-. lia.
           ++ by rewrite lookup_nil in H.
      * intros Hj. rewrite lookup_app_l in H by done.
        destruct IH as [(_ & -> & Hall)|(i & mo & ws & _ & _ & -> & _ & Hmax)].
        -- rewrite Forall_forall in Hall.
           apply list_elem_of_lookup_2, Hall in H. simpl in H. lia.
        -- apply Hmax in H as [? _]. lia.
    + destruct IH as [(-> & -> & Hall)|(i & mo & ws & Hi & -> & -> & Hm0 & Hmax)].
      * left. repeat split. apply Forall_app. split; [done|].
        repeat constructor. simpl. lia.
      * right. exists i, mo, ws.
        assert (i < length table) as Hlen by (by eapply lookup_lt_Some).
        rewrite lookup_app_l by done. repeat split; try done.
        -- destruct (decide (j < length table)) as [Hj|Hj].
           ++ rewrite lookup_app_l in H by done. by apply Hmax in H as [? _].
           ++ rewrite lookup_app_r in H by lia.
              destruct (j - length table) as [|k]; simpl in H.
              ** injection H as _ <-. lia.
              ** by rewrite lookup_nil in H.
        -- intros Hj. rewrite lookup_app_l in H by lia.
           apply Hmax in H as [_ H]. by apply H.
Qed.

(** ** Lowercasing, substrings and scores *)

Lemma toLowerCase_length s : String.length (toLowerCase s) = String.length s.
Proof. induction s as [|c s IH]; simpl; [done|]. by rewrite IH. Qed.

Lemma toLowerCase_get s : ∀ i c,
  String.get i s = Some c → String.get i (toLowerCase s) = Some (lower_ascii c).
Proof.
  induction s as [|a s IH]; intros i c; simpl; [done|].
  destruct i as [|i]; [by intros [= ->]|]. apply IH.
Qed.

Lemma prefix_occurs word : ∀ text,
  String.prefix word text = true ↔ ∃ after, text = String.append word after.
Proof.
  induction word as [|a word IH]; intros text.
  - split; [intros _; by exists text|]. intros _. by destruct text.
  - destruct text as [|b text]; simpl.
    + split; [done|]. by intros [after [=]].
    + destruct (Ascii.ascii_dec a b) as [->|Hne].
      * rewrite IH. split.
        -- intros [after ->]. by exists after.
        -- intros [after H]. exists after. simpl in H. by injection H.
      * split; [done|]. intros [after H]. simpl in H. injection H as ? _. congruence.
Qed.

Lemma includes_occurs word : ∀ text, includes text word = true ↔ occurs word text.
Proof.
  induction text as [|b text IH].
  - cbn [includes]. destruct (String.prefix word "") eqn:P.
    + split; [intros _|done]. apply prefix_occurs in P as [after ->].
      by exists "", after.
    + split; [done|]. intros (before & after & H).
      destruct before; simpl in H; [|done].
      assert (String.prefix word "" = true) as P'
        by (apply prefix_occurs; by exists after).
      congruence.
  - cbn [includes]. destruct (String.prefix word (String b text)) eqn:P.
    + split; [intros _|done]. apply prefix_occurs in P as [after ->].
      by exists "", after.
    + rewrite IH. split.
      * intros (before & after & ->). by exists (String b before), after.
      * intros (before & after & H). destruct before as [|b' before]; simpl in H.
        -- assert (String.prefix word (String b text) = true) as P'
             by (apply prefix_occurs; by exists after).
           congruence.
        -- injection H as _ ->. by exists before, after.
Qed.

Lemma score_cons text word words :
  (occurs word text → score text (word :: words) = S (score text words)) ∧
  (¬ occurs word text → score text (word :: words) = score text words).
Proof.
  unfold score. simpl. rewrite <- includes_occurs.
  destruct (includes text word); simpl; split; done.
Qed.

Lemma score_zero text words word :
  score text words = 0 → word ∈ words → ¬ occurs word text.
Proof.
  intros Hz Hin Hocc. apply includes_occurs in Hocc.
  assert (In word (List.filter (includes text) words)) as Hf
    by (apply filter_In; split; [by apply list_elem_of_In|done]).
  unfold score in Hz. destruct (List.filter (includes text) words); [done|].
  simpl in Hz. lia.
Qed.

(** C7.  On text of ASCII characters, [analyzeMood] lowercases the text:
    the lowered text has the same length, each of the letters A to Z
    (codes 65 to 90) is replaced by the letter 32 codes above it, and every
    other character is kept.  The score of a list of words counts the
    words that occur in the text as substrings.  Either no keyword of any
    mood occurs in the lowered text and the result is the fallback
    "peaceful"; or the result is the mood of the first table entry whose
    score on the lowered text is the highest, that score being positive:
    every entry scores at most as much and every earlier entry strictly
    less.  On "I feel the rain and thunder", rain and storm both score 1,
    no mood scores more, and the result is rain, the earlier of the two. *)
Theorem analyzeMood_first_best (moodText : string) :
  asciiText moodText = true →
  (String.length (toLowerCase moodText) = String.length moodText ∧
   ∀ i c, String.get i moodText = Some c →
     (65 ≤ Ascii.nat_of_ascii c ≤ 90 →
      String.get i (toLowerCase moodText) =
        Some (Ascii.ascii_of_nat (Ascii.nat_of_ascii c + 32))) ∧
     (¬ 65 ≤ Ascii.nat_of_ascii c ≤ 90 →
      String.get i (toLowerCase moodText) = Some c)) ∧
  (∀ text word words,
     score text [] = 0 ∧
     (occurs word text → score text (word :: words) = S (score text words)) ∧
     (¬ occurs word text → score text (word :: words) = score text words)) ∧
  ((analyzeMood moodText = "peaceful" ∧
    keywordFree (toLowerCase moodText) ∧
    ∀ mood words word, (mood, words) ∈ keywords → word ∈ words →
                       ¬ occurs word (toLowerCase moodText)) ∨
   (∃ i mood words,
      keywords !! i = Some (mood, words) ∧
      analyzeMood moodText = mood ∧
      0 < score (toLowerCase moodText) words ∧
      ∀ j mood' words', keywords !! j = Some (mood', words') →
        score (toLowerCase moodText) words' ≤ score (toLowerCase moodText) words ∧
        (j < i → score (toLowerCase moodText) words' < score (toLowerCase moodText) words))) ∧
  (score (toLowerCase "I feel the rain and thunder") <$> prop keywords "rain" = Some 1 ∧
   score (toLowerCase "I feel the rain and thunder") <$> prop keywords "storm" = Some 1 ∧
   Forall (λ entry : string * list string,
             score (toLowerCase "I feel the rain and thunder") entry.2 ≤ 1) keywords ∧
   analyzeMood "I feel the rain and thunder" = "rain").
Proof.
  intros _. split; [|split; [|split]].
  - split; [apply toLowerCase_length|]. intros i c Hc.
    rewrite (toLowerCase_get _ _ _ Hc). unfold lower_ascii. split; intros Hr.
    + destruct (Nat.leb_spec 65 (Ascii.nat_of_ascii c)); [|lia].
      destruct (Nat.leb_spec (Ascii.nat_of_ascii c) 90); [done|lia].
    + destruct (Nat.leb_spec 65 (Ascii.nat_of_ascii c)); [|done].
      destruct (Nat.leb_spec (Ascii.nat_of_ascii c) 90); [lia|done].
  - intros text word words. split; [done|]. apply score_cons.
  - unfold analyzeMood, bestOf.
    pose proof (scan_first_max (toLowerCase moodText) "peaceful" 0 keywords) as H.
    destruct (foldl (scan (toLowerCase moodText)) ("peaceful", 0) keywords) as [b m].
    simpl. destruct H as [(-> & _ & Hall)|(i & mood & words & Hi & -> & -> & Hpos & Hmax)].
    + left. split; [done|].
      split; [eapply Forall_impl; [exact Hall|]; simpl; intros; lia|].
      intros mood words word Hin Hw.
      rewrite Forall_forall in Hall. apply Hall in Hin. simpl in Hin.
      apply (score_zero _ words); [lia|done].
    + right. exists i, mood, words. split; [done|]. split; [done|]. split; [lia|].
      intros j mood' words' Hj. by apply Hmax in Hj.
  - repeat split; try (by vm_compute).
    unfold keywords. repeat constructor; vm_compute; lia.
Qed.

Lemma analyzeMood_first_best_witness :
  let moodText := "The RAIN and Thunder" in
  asciiText moodText = true ∧
  (String.length (toLowerCase moodText) = String.length moodText ∧
   ∀ i c, String.get i moodText = Some c →
     (65 ≤ Ascii.nat_of_ascii c ≤ 90 →
      String.get i (toLowerCase moodText) =
        Some (Ascii.ascii_of_nat (Ascii.nat_of_ascii c + 32))) ∧
     (¬ 65 ≤ Ascii.nat_of_ascii c ≤ 90 →
      String.get i (toLowerCase moodText) = Some c)) ∧
  (∀ text word words,
     score text [] = 0 ∧
     (occurs word text → score text (word :: words) = S (score text words)) ∧
     (¬ occurs word text → score text (word :: words) = score text words)) ∧
  ((analyzeMood moodText = "peaceful" ∧
    keywordFree (toLowerCase moodText) ∧
    ∀ mood words word, (mood, words) ∈ keywords → word ∈ words →
                       ¬ occurs word (toLowerCase moodText)) ∨
   (∃ i mood words,
      keywords !! i = Some (mood, words) ∧
      analyzeMood moodText = mood ∧
      0 < score (toLowerCase moodText) words ∧
      ∀ j mood' words', keywords !! j = Some (mood', words') →
        score (toLowerCase moodText) words' ≤ score (toLowerCase moodText) words ∧
        (j < i → score (toLowerCase moodText) words' < score (toLowerCase moodText) words))) ∧
  (score (toLowerCase "I feel the rain and thunder") <$> prop keywords "rain" = Some 1 ∧
   score (toLowerCase "I feel the rain and thunder") <$> prop keywords "storm" = Some 1 ∧
   Forall (λ entry : string * list string,
             score (toLowerCase "I feel the rain and thunder") entry.2 ≤ 1) keywords ∧
   analyzeMood "I feel the rain and thunder" = "rain").
Proof.
  intros moodText. split; [reflexivity|].
  apply (analyzeMood_first_best moodText). reflexivity.
Defined.

(** When no keyword occurs, the result is the fallback. *)
Lemma analyzeMood_keywordFree moodText :
  keywordFree (toLowerCase moodText) → analyzeMood moodText = "peaceful".
Proof.
  intros Hfree. unfold analyzeMood, bestOf.
  pose proof (scan_first_max (toLowerCase moodText) "peaceful" 0 keywords) as H.
  destruct (foldl (scan (toLowerCase moodText)) ("peaceful", 0) keywords) as [b m].
  simpl. destruct H as [(-> & _ & _)|(i & mood & words & Hi & -> & -> & Hpos & _)]; [done|].
  unfold keywordFree in Hfree. rewrite Forall_forall in Hfree.
  apply list_elem_of_lookup_2, Hfree in Hi. simpl in Hi. lia.
Qed.

End MoodAnalysis.

(** * Properties of the composer: melody generation *)

Module MelodyGeneration.
Import AIComposer.

Local Open Scope Z_scope.

Example heroic_on_major :
  melody (generateOn ["C4"; "D4"; "E4"; "F4"; "G4"; "A4"; "B4"; "C5"; "D5"; "E5"]
                     "heroic" (λ _, 0%Q)) =
  Some <$> ["C4"; "E4"; "G4"; "C5"; "E5"; "C5"; "G4"; "E4"; "C4"].
Proof. by vm_compute. Qed.

Example heroic_on_short_scale :
  reads (heroic ["C4"; "D4"; "E4"; "G4"; "A4"; "C5"; "D5"; "E5"]) =
    [0; 2; 4; 7; 9; 7; 7; 4; 2; 0] ∧
  melody (heroic ["C4"; "D4"; "E4"; "G4"; "A4"; "C5"; "D5"; "E5"]) =
    Some <$> ["C4"; "E4"; "A4"; "E5"; "E5"; "E5"; "A4"; "E4"; "C4"].
Proof. by vm_compute. Qed.

Example playful_draws :
  reads (playful ["C4"; "D4"; "E4"; "F4"; "G4"; "A4"; "B4"; "C5"; "D5"; "E5"]
                 (λ k, if Nat.even k then 0%Q else (99 # 100)%Q)) =
  [0; 2; 0; 4; 2; 6; 4; 8].
Proof. by vm_compute. Qed.

Lemma scaleAt_defined scale i :
  0 ≤ i < len scale → ∃ n, scaleAt scale i = Some n ∧ n ∈ scale.
Proof.
  intros [H0 H1]. unfold scaleAt, len in *.
  destruct (Z.ltb_spec i 0); [lia|].
  destruct (scale !! Z.to_nat i) as [n|] eqn:E.
  - exists n. split; [done|]. eapply list_elem_of_lookup_2, E.
  - apply lookup_ge_None in E. lia.
Qed.

Lemma inBounds_defined scale g :
  inBounds scale g → Forall (λ v, ∃ n, v = Some n ∧ n ∈ scale) (melody g).
Proof.
  intros [Hr ->]. apply Forall_fmap. eapply Forall_impl; [exact Hr|].
  intros i Hi. by apply scaleAt_defined.
Qed.

Lemma inBounds_empty scale : inBounds scale emptyGen.
Proof. split; [constructor|done]. Qed.

Lemma inBounds_pushAt scale g i :
  inBounds scale g → 0 ≤ i < len scale → inBounds scale (pushAt scale g i).
Proof.
  intros [Hr Hm] Hi. split; simpl.
  - apply Forall_app. split; [done|]. by apply Forall_singleton.
  - by rewrite Hm, fmap_app.
Qed.

Lemma inBounds_foldl {A} scale (f : Gen → A → Gen) (l : list A) :
  (∀ g a, inBounds scale g → inBounds scale (f g a)) →
  ∀ g, inBounds scale g → inBounds scale (foldl f g l).
Proof. intros Hf. induction l as [|a l IH]; intros g Hg; simpl; auto. Qed.

(** [Math.floor(Math.random() * n)] is an index below [n]. *)
Lemma floor_draw r n :
  (0 <= r)%Q → (r < 1)%Q → 0 < n → 0 ≤ Qfloor (r * inject_Z n) < n.
Proof.
  intros H0 H1 Hn. split.
  - transitivity (Qfloor (inject_Z 0)); [by rewrite Qfloor_Z|].
    apply Qfloor_resp_le. apply Qmult_le_0_compat; [done|].
    change 0%Q with (inject_Z 0). rewrite <- Zle_Qle. lia.
  - rewrite Zlt_Qlt. eapply Qle_lt_trans; [apply Qfloor_le|].
    rewrite <- (Qmult_1_l (inject_Z n)) at 2.
    apply Qmult_lt_compat_r; [|done].
    change 0%Q with (inject_Z 0). rewrite <- Zlt_Qlt. lia.
Qed.

Lemma ascending_inBounds scale : 0 < len scale → inBounds scale (ascending scale).
Proof.
  intros Hn. apply inBounds_foldl; [|apply inBounds_empty].
  intros g i Hg. apply inBounds_pushAt; [done|lia].
Qed.

Lemma descending_inBounds scale : 0 < len scale → inBounds scale (descending scale).
Proof.
  intros Hn. apply inBounds_foldl; [|apply inBounds_empty].
  intros g i Hg. apply inBounds_pushAt; [done|lia].
Qed.

Lemma playful_inBounds scale rnd : 0 < len scale → inBounds scale (playful scale rnd).
Proof.
  intros Hn. apply inBounds_foldl; [|apply inBounds_empty].
  intros g i Hg. apply inBounds_pushAt; [done|lia].
Qed.

Lemma randomNotes_inBounds scale rnd :
  validDraws rnd → 0 < len scale → inBounds scale (randomNotes scale rnd).
Proof.
  intros Hv Hn. apply inBounds_foldl; [|apply inBounds_empty].
  intros g i Hg. apply inBounds_pushAt; [done|].
  destruct (Hv i). by apply floor_draw.
Qed.

Lemma flowing_inBounds scale rnd : 0 < len scale → inBounds scale (flowing scale rnd).
Proof.
  intros Hn. unfold flowing.
  assert (∀ l st, inBounds scale st.1 ∧ 0 ≤ st.2 < len scale →
            inBounds scale (foldl (walkStep scale rnd) st l).1) as H.
  { induction l as [|i l IH]; intros [g c] [Hg Hc]; simpl in *; [done|].
    apply IH. simpl. split; [by apply inBounds_pushAt|lia]. }
  apply H. simpl. split; [apply inBounds_empty|].
  split; [apply Z.div_pos; lia|apply Z.div_lt_upper_bound; lia].
Qed.

Lemma heroic_inBounds scale :
  10 ≤ len scale → truthyNote (scaleAt scale 9) = true → inBounds scale (heroic scale).
Proof.
  intros Hn Htop. unfold heroic. rewrite Htop.
  change (inBounds scale
            (foldl (pushAt scale)
               (pushAt scale (foldl (pushAt scale) emptyGen [0; 2; 4; 7]) 9)
               [7; 4; 2; 0])).
  simpl. repeat apply inBounds_pushAt; try lia. apply inBounds_empty.
Qed.

Lemma sparse_inBounds scale : 7 ≤ len scale → inBounds scale (sparse scale).
Proof.
  intros Hn. unfold sparse. simpl.
  repeat apply inBounds_pushAt; try lia. apply inBounds_empty.
Qed.

Lemma generateOn_inBounds scale pattern rnd :
  validDraws rnd →
  0 < len scale →
  (pattern = "heroic" → 10 ≤ len scale ∧ truthyNote (scaleAt scale 9) = true) →
  (pattern = "sparse" → 7 ≤ len scale) →
  inBounds scale (generateOn scale pattern rnd).
Proof.
  intros Hv Hn Hheroic Hsparse. unfold generateOn.
  repeat match goal with
         | |- context [String.eqb pattern ?p] =>
             destruct (String.eqb_spec pattern p)
         end;
    auto using ascending_inBounds, descending_inBounds, playful_inBounds,
               randomNotes_inBounds, flowing_inBounds, sparse_inBounds.
  apply heroic_inBounds; by apply Hheroic.
Qed.

(** C10.  For every registered mood and every outcome of the random
    draws, [generateMelody] returns a melody; every index at which it reads
    the mood's scale is within the scale's bounds, and every element of the
    melody is a note of that scale. *)
Theorem melody_indices_in_range (key : string) (config : MoodConfig) (rnd : nat → Q) :
  prop moodConfigs key = Some config →
  validDraws rnd →
  ∃ notes g,
    prop scales (scale config) = Some notes ∧
    generateTrace config rnd = Some g ∧
    generateMelody config rnd = Some (melody g) ∧
    Forall (λ i, 0 ≤ i < len notes) (reads g) ∧
    Forall (λ v, ∃ n, v = Some n ∧ n ∈ notes) (melody g).
Proof.
  intros Hkey Hv.
  assert (∃ notes, prop scales (scale config) = Some notes ∧ 0 < len notes ∧
            (pattern config = "heroic" → 10 ≤ len notes ∧ truthyNote (scaleAt notes 9) = true) ∧
            (pattern config = "sparse" → 7 ≤ len notes))
    as (notes & Hscale & Hn & Hheroic & Hsparse).
  { revert Hkey. unfold moodConfigs. cbn [prop].
    repeat (destruct (String.eqb _ key);
            [intros [= <-]; eexists; split; [reflexivity|];
             by vm_compute|]).
    discriminate. }
  pose proof (generateOn_inBounds notes (pattern config) rnd Hv Hn Hheroic Hsparse) as Hb.
  exists notes, (generateOn notes (pattern config) rnd).
  unfold generateMelody, generateTrace. rewrite Hscale. simpl.
  repeat split; try done.
  - apply Hb.
  - by apply inBounds_defined.
Qed.

(** C9.  On a scale of at least eight notes, whatever the random draws,
    the ascending pattern yields the first eight notes of the scale in
    order, and the sparse pattern yields the four notes at indices 0, 2, 4
    and 6. *)
Theorem nonrandom_patterns (notes : list string) (rnd : nat → Q) :
  (8 ≤ length notes)%nat →
  melody (generateOn notes "ascending" rnd) = Some <$> take 8 notes ∧
  melody (generateOn notes "sparse" rnd) =
    [notes !! 0%nat; notes !! 2%nat; notes !! 4%nat; notes !! 6%nat] ∧
  Forall is_Some [notes !! 0%nat; notes !! 2%nat; notes !! 4%nat; notes !! 6%nat].
Proof.
  intros Hlen.
  change (generateOn notes "ascending" rnd) with (ascending notes).
  change (generateOn notes "sparse" rnd) with (sparse notes).
  split; [|split].
  - unfold ascending. cbn [foldl seq]. unfold pushAt. cbn [reads melody emptyGen app].
    rewrite !Z.min_l by (unfold len; lia).
    do 8 (destruct notes as [|? notes]; [simpl in Hlen; lia|]). reflexivity.
  - reflexivity.
  - do 8 (destruct notes as [|? notes]; [simpl in Hlen; lia|]).
    repeat constructor; by eexists.
Qed.

Lemma melody_indices_in_range_witness :
  let rnd := λ _ : nat, (1 # 2)%Q in
  let config := mkMood "☀️ Summer Joy" "major" "energetic" "fast" 350 "bright" "playful"
                  "Energetic, joyful composition with vibrant rhythms" in
  prop moodConfigs "summer" = Some config ∧
  validDraws rnd ∧
  ∃ notes g,
    prop scales (scale config) = Some notes ∧
    generateTrace config rnd = Some g ∧
    generateMelody config rnd = Some (melody g) ∧
    Forall (λ i, 0 ≤ i < len notes) (reads g) ∧
    Forall (λ v, ∃ n, v = Some n ∧ n ∈ notes) (melody g).
Proof.
  intros rnd config.
  assert (validDraws rnd) as Hv
    by (intros k; split; [unfold Qle|unfold Qlt]; simpl; lia).
  split; [reflexivity|]. split; [exact Hv|].
  apply (melody_indices_in_range "summer" config rnd); [reflexivity|exact Hv].
Defined.

Lemma nonrandom_patterns_witness :
  let notes := ["C4"; "D4"; "E4"; "F4"; "G4"; "A4"; "B4"; "C5"; "D5"; "E5"] in
  let rnd := λ _ : nat, 0%Q in
  (8 ≤ length notes)%nat ∧
  melody (generateOn notes "ascending" rnd) = Some <$> take 8 notes ∧
  melody (generateOn notes "sparse" rnd) =
    [notes !! 0%nat; notes !! 2%nat; notes !! 4%nat; notes !! 6%nat] ∧
  Forall is_Some [notes !! 0%nat; notes !! 2%nat; notes !! 4%nat; notes !! 6%nat].
Proof.
  intros notes rnd. split; [simpl; lia|].
  apply (nonrandom_patterns notes rnd). simpl. lia.
Defined.

End MelodyGeneration.

(** * Properties of the composer: the composition loop *)

Module CompositionLoop.
Import AIComposer.

Local Open Scope nat_scope.

Example composing_twice :
  timerId <$> pendingTicks (run [Compose "epic" (λ _, 0%Q) 0]) = [2] ∧
  timerId <$> pendingTicks
    (run [Compose "epic" (λ _, 0%Q) 0; Compose "joy" (λ _, 0%Q) 0]) = [4] ∧
  pianoCalls (run [Compose "epic" (λ _, 0%Q) 0; Compose "joy" (λ _, 0%Q) 0]) =
    [PressKey (Some "C4"); PressKey (Some "C4")].
Proof. by vm_compute. Qed.

(** ** What one tick does *)

Lemma stamp_app first l1 l2 :
  stamp first (l1 ++ l2) = stamp first l1 ++ stamp (first + length l1) l2.
Proof.
  revert first. induction l1 as [|[d cb] l1 IH]; intros first; simpl.
  - by rewrite Nat.add_0_r.
  - rewrite IH. do 3 f_equal. lia.
Qed.

Lemma stamp_ticks_none first l :
  Forall (λ rq : Q * Callback, ∀ m c k, rq.2 ≠ PlayNextNote m c k) l →
  filter (λ t, isTick t = true) (stamp first l) = [].
Proof.
  revert first. induction l as [|[d cb] l IH]; intros first Hall; simpl; [done|].
  apply Forall_cons in Hall as [Hcb Hall].
  rewrite filter_cons_False; [by apply IH|].
  unfold isTick. simpl in *. destruct cb; try done. by specialize (Hcb _ _ _ eq_refl).
Qed.

Lemma scheduleChord_spec note chord : ∀ w,
  scheduleChord note chord w =
    {| isPlaying := isPlaying w; intervalId := intervalId w;
       currentMood := currentMood w; currentComposition := currentComposition w;
       timers := timers w ++ stamp (nextTimerId w) (chordRequests note chord);
       nextTimerId := nextTimerId w + length (chordRequests note chord);
       pianoCalls := pianoCalls w |}.
Proof.
  unfold scheduleChord, chordRequests.
  induction chord as [|c chord IH]; intros w; simpl.
  - rewrite app_nil_r, Nat.add_0_r. by destruct w.
  - rewrite IH. case_bool_decide as Hc.
    + rewrite filter_cons_True by done. simpl.
      rewrite <- app_assoc. simpl. f_equal. symmetry. apply Nat.add_succ_r.
    + rewrite filter_cons_False by naive_solver. done.
Qed.

(** The world a tick leaves, when the composition is complete and the
    cursors are on a note, a chord and a duration. *)
Lemma playNextNote_eq (w : World) (comp : Composition)
    (chords : list (list string)) (rhythmPattern : list Z)
    (mi ci ri : nat) (note : option string) (chord : list string)
    (duration : Z) (r : Q) :
  isPlaying w = true →
  currentComposition w = Some comp →
  comp_chords comp = Some chords →
  comp_rhythmPattern comp = Some rhythmPattern →
  comp_melody comp !! mi = Some note →
  chords !! ci = Some chord →
  rhythmPattern !! ri = Some duration →
  playNextNote (Some mi) (Some ci) (Some ri) r w =
    {| isPlaying := true;
       intervalId :=
         Some (nextTimerId w
               + length (if Qgtb r chordThreshold then chordRequests note chord else [])
               + 1);
       currentMood := currentMood w;
       currentComposition := Some comp;
       timers :=
         timers w ++
         stamp (nextTimerId w)
           ((if Qgtb r chordThreshold then chordRequests note chord else []) ++
            [ ((inject_Z duration * (8 # 10))%Q, ReleaseNote note);
              (inject_Z duration,
               PlayNextNote
                 (Some ((mi + 1) mod length (comp_melody comp)))
                 (Some (if Qgtb r chordThreshold
                        then (ci + 1) mod length chords else ci))
                 (Some ((ri + 1) mod length rhythmPattern))) ]);
       nextTimerId :=
         nextTimerId w
         + length (if Qgtb r chordThreshold then chordRequests note chord else [])
         + 2;
       pianoCalls := pianoCalls w ++ [PressKey note] |}.
Proof.
  intros Hplay Hcomp Hchords Hrhythm Hnote Hchord Hdur.
  unfold playNextNote. rewrite Hplay, Hcomp, Hchords, Hrhythm. simpl.
  rewrite Hnote, Hchord, Hdur. simpl.
  assert (length (comp_melody comp) ≠ 0) as Hm
    by (apply lookup_lt_Some in Hnote; lia).
  assert (length chords ≠ 0) as Hc by (apply lookup_lt_Some in Hchord; lia).
  assert (length rhythmPattern ≠ 0) as Hr by (apply lookup_lt_Some in Hdur; lia).
  apply Nat.eqb_neq in Hm, Hc, Hr. rewrite Hm, Hr.
  destruct (Qgtb r chordThreshold); simpl.
  + rewrite Hc, scheduleChord_spec. simpl.
    rewrite stamp_app, <- !app_assoc. simpl.
    unfold with_intervalId. simpl. rewrite Hplay, Hcomp.
    f_equal; [f_equal; lia|lia].
  + unfold with_intervalId. simpl. rewrite Hplay, Hcomp, Nat.add_0_r.
    f_equal; [f_equal; lia|by rewrite <- app_assoc|lia].
Qed.



(** ** At most one loop is ticking *)

Lemma chordRequests_no_tick note chord :
  Forall (λ rq : Q * Callback, ∀ m c k, rq.2 ≠ PlayNextNote m c k)
         (chordRequests note chord).
Proof. unfold chordRequests. apply Forall_fmap, Forall_true. by intros. Qed.

Lemma scheduleChord_ticks note chord w :
  pendingTicks (scheduleChord note chord w) = pendingTicks w ∧
  isPlaying (scheduleChord note chord w) = isPlaying w ∧
  nextTimerId w ≤ nextTimerId (scheduleChord note chord w).
Proof.
  rewrite scheduleChord_spec. unfold pendingTicks. simpl.
  rewrite filter_app, stamp_ticks_none by apply chordRequests_no_tick.
  rewrite app_nil_r. repeat split. lia.
Qed.

Lemma clearTimeout_ticks id w :
  pendingTicks (clearTimeout id w) = filter (λ t, timerId t ≠ id) (pendingTicks w).
Proof.
  unfold pendingTicks, clearTimeout. simpl.
  induction (timers w) as [|t l IH]; [done|].
  rewrite !filter_cons. repeat case_decide; rewrite ?filter_cons; repeat case_decide;
    try done; by rewrite IH.
Qed.

(** A tick started when none is pending leaves at most one pending, under
    a handle issued by the tick itself. *)
Lemma playNextNote_ticks m c k r w :
  pendingTicks w = [] →
  nextTimerId w ≠ 0 →
  isPlaying (playNextNote m c k r w) = isPlaying w ∧
  nextTimerId (playNextNote m c k r w) ≠ 0 ∧
  (pendingTicks (playNextNote m c k r w) = [] ∨
   ∃ t, pendingTicks (playNextNote m c k r w) = [t] ∧
        intervalId (playNextNote m c k r w) = Some (timerId t) ∧
        nextTimerId w ≤ timerId t).
Proof.
  intros Hnone Hpos. unfold playNextNote.
  destruct (isPlaying w) eqn:Hplay; simpl; [|by rewrite Hplay; auto].
  destruct (currentComposition w) as [comp|]; [|by rewrite Hplay; auto].
  set (note := mjoin _).
  set (w1 := callPiano (PressKey note) w).
  assert (pendingTicks w1 = [] ∧ isPlaying w1 = true ∧ nextTimerId w ≤ nextTimerId w1)
    as H1 by (by unfold w1, pendingTicks; simpl; rewrite Hplay).
  set (chordStep := if Qgtb r chordThreshold then _ else _).
  assert (match chordStep with
          | Some (w2, _) =>
              pendingTicks w2 = [] ∧ isPlaying w2 = true ∧ nextTimerId w ≤ nextTimerId w2
          | None => True
          end) as H2.
  { unfold chordStep. destruct (Qgtb r chordThreshold); [|done].
    destruct (comp_chords comp) as [chords|]; [|done].
    destruct (atCursor chords c) as [chord|]; [|done].
    destruct (scheduleChord_ticks note chord w1) as (-> & -> & ?).
    destruct H1 as (? & ? & ?). repeat split; try done; lia. }
  destruct chordStep as [[w2 c']|]; [|destruct H1 as (-> & -> & ?); repeat split; auto; lia].
  destruct H2 as (T2 & P2 & N2).
  destruct (comp_rhythmPattern comp) as [rhythmPattern|];
    [|rewrite T2, P2; repeat split; auto; lia].
  unfold pendingTicks in *. simpl. rewrite P2. repeat split; [lia|].
  right. eexists. rewrite !filter_app, T2. simpl.
  split; [reflexivity|]. simpl. split; [done|lia].
Qed.

Lemma clear_single (t : Timer) :
  filter (λ t', timerId t' ≠ timerId t) [t] = [].
Proof. rewrite filter_cons_False, filter_nil; [done|]. by intros H. Qed.

Lemma keep_or_clear (t : Timer) id :
  filter (λ t', timerId t' ≠ id) [t] = [] ∨ filter (λ t', timerId t' ≠ id) [t] = [t].
Proof.
  destruct (decide (timerId t = id)) as [<-|Hne].
  - left. apply clear_single.
  - right. by rewrite filter_cons_True, filter_nil.
Qed.

Lemma stop_ticks w : loop_inv w → loop_inv (stop w) ∧ pendingTicks (stop w) = [].
Proof.
  intros (Hpos & _ & Hone).
  assert (pendingTicks (stop w) = []) as Hnone.
  { unfold stop. simpl.
    destruct Hone as [Hnone|(t & Ht & Hid & Hnz)].
    - destruct (intervalId w) as [[|n]|]; try done.
      change (pendingTicks (clearTimeout (S n) w) = []).
      by rewrite clearTimeout_ticks, Hnone.
    - rewrite Hid. destruct (timerId t) as [|n] eqn:E; [done|].
      change (pendingTicks (clearTimeout (S n) w) = []).
      rewrite clearTimeout_ticks, Ht, <- E. apply clear_single. }
  split; [|done]. repeat split; auto.
  unfold stop. simpl. by destruct (intervalId w) as [[|n]|].
Qed.

Lemma playNextNote_inv m c k r w :
  pendingTicks w = [] → loop_inv w → loop_inv (playNextNote m c k r w).
Proof.
  intros Hnone (Hpos & Hoff & _).
  destruct (playNextNote_ticks m c k r w Hnone Hpos) as (Hplay & Hpos' & Hone).
  repeat split; [done| |].
  - rewrite Hplay. intros Hp. unfold playNextNote. rewrite Hp. simpl. auto.
  - destruct Hone as [?|(t & ? & ? & ?)]; [by left|].
    right. exists t. repeat split; try done. lia.
Qed.

Lemma compose_inv key rnd r w : loop_inv w → loop_inv (compose key rnd r w).
Proof.
  intros Hinv. unfold compose.
  set (w1 := if isPlaying w then stop w else w).
  assert (loop_inv w1 ∧ pendingTicks w1 = []) as [H1 Hnone].
  { unfold w1. destruct (isPlaying w) eqn:Hp; [by apply stop_ticks|].
    split; [done|]. by apply Hinv. }
  destruct (prop moodConfigs key) as [config|]; [|done].
  destruct H1 as (Hpos & _ & _).
  destruct (generateMelody config rnd) as [mel|].
  - apply playNextNote_inv; [done|]. repeat split; auto.
  - repeat split; auto.
Qed.

Lemma fire_inv id r w : loop_inv w → loop_inv (fire id r w).
Proof.
  intros Hinv. unfold fire.
  destruct (List.find _ (timers w)) as [t|] eqn:Hfind; [|done].
  apply find_some in Hfind as [Hin Hid]. apply Nat.eqb_eq in Hid.
  apply list_elem_of_In in Hin.
  destruct Hinv as (Hpos & Hoff & Hone).
  assert (loop_inv (clearTimeout id w)) as Hclear.
  { repeat split; [done| |].
    - intros Hp. rewrite clearTimeout_ticks, Hoff; done.
    - rewrite clearTimeout_ticks.
      destruct Hone as [->|(t' & -> & ? & ?)]; [by left|].
      destruct (keep_or_clear t' id) as [->| ->]; [by left|].
      right. by exists t'. }
  destruct (callback t) as [m c k|chordNote|note] eqn:Hcb; simpl; try done.
  apply playNextNote_inv; [|done].
  rewrite clearTimeout_ticks.
  destruct Hone as [->|(t' & Ht' & _ & _)]; [done|].
  assert (t ∈ pendingTicks w) as Ht.
  { unfold pendingTicks. apply list_elem_of_filter. split; [|done].
    unfold isTick. by rewrite Hcb. }
  rewrite Ht' in *. apply list_elem_of_singleton in Ht as ->.
  rewrite <- Hid. apply clear_single.
Qed.

Lemma run_inv evs : loop_inv (run evs).
Proof.
  unfold run. induction evs as [|ev evs IH] using rev_ind.
  - repeat split; auto.
  - rewrite foldl_app. simpl. destruct ev; simpl.
    + by apply compose_inv.
    + by apply stop_ticks.
    + by apply fire_inv.
Qed.

(** C5.  After any sequence of [compose] calls, [stop] calls and timer
    firings: at most one next-tick timer is pending, and none when the
    composer is not playing; [stop] leaves none pending; and a further
    [compose] leaves at most one pending, whose handle was issued during
    that call, so that the loop of the composition in flight no longer
    ticks. *)
Theorem single_composition (evs : list Event) :
  length (pendingTicks (run evs)) ≤ 1 ∧
  (isPlaying (run evs) = false → pendingTicks (run evs) = []) ∧
  pendingTicks (stop (run evs)) = [] ∧
  ∀ key rnd r,
    length (pendingTicks (compose key rnd r (run evs))) ≤ 1 ∧
    Forall (λ t, nextTimerId (run evs) ≤ timerId t)
           (pendingTicks (compose key rnd r (run evs))).
Proof.
  pose proof (run_inv evs) as Hinv.
  assert (∀ w, loop_inv w → length (pendingTicks w) ≤ 1) as Hle.
  { intros w (_ & _ & [->|(t & -> & _)]); simpl; lia. }
  split; [by apply Hle|]. split; [by apply Hinv|].
  split; [by apply stop_ticks|].
  intros key rnd r. split; [by apply Hle, compose_inv|].
  unfold compose.
  set (w1 := if isPlaying (run evs) then stop (run evs) else run evs).
  assert (pendingTicks w1 = [] ∧ nextTimerId w1 = nextTimerId (run evs) ∧
          nextTimerId w1 ≠ 0) as (Hnone & Hnext & Hpos).
  { unfold w1. destruct (isPlaying (run evs)) eqn:Hp.
    - split; [by apply stop_ticks|]. split.
      + unfold stop. simpl. by destruct (intervalId (run evs)) as [[|n]|].
      + by apply stop_ticks.
    - split; [by apply Hinv|]. split; [done|]. by apply Hinv. }
  destruct (prop moodConfigs key) as [config|]; [|by rewrite Hnone].
  destruct (generateMelody config rnd) as [mel|].
  - match goal with
    | |- Forall _ (pendingTicks (playComposition r ?w2)) =>
        destruct (playNextNote_ticks (Some 0) (Some 0) (Some 0) r w2 Hnone Hpos)
          as (_ & _ & [Hn|(t & Ht & _ & Hfresh)])
    end.
    + unfold playComposition. by rewrite Hn.
    + unfold playComposition. rewrite Ht. apply Forall_singleton.
      simpl in Hfresh. lia.
  - unfold pendingTicks in *. simpl. by rewrite Hnone.
Qed.

(** ** Every tick that runs meets the conditions of the tick contract *)

Lemma lookup_next {A} (l : list A) i x :
  l !! i = Some x → is_Some (l !! ((i + 1) mod length l)).
Proof.
  intros H. apply lookup_lt_is_Some_2, Nat.mod_upper_bound.
  apply lookup_lt_Some in H. lia.
Qed.

Lemma playNextNote_ready (w : World) (comp : Composition)
    (chords : list (list string)) (rhythmPattern : list Z)
    (mi ci ri : nat) (note : option string) (chord : list string)
    (duration : Z) (r : Q) :
  isPlaying w = true →
  currentComposition w = Some comp →
  comp_chords comp = Some chords →
  comp_rhythmPattern comp = Some rhythmPattern →
  comp_melody comp !! mi = Some note →
  chords !! ci = Some chord →
  rhythmPattern !! ri = Some duration →
  pendingTicks w = [] →
  ready_inv (playNextNote (Some mi) (Some ci) (Some ri) r w).
Proof.
  intros Hplay Hcomp Hchords Hrhythm Hnote Hchord Hdur Hnone _.
  rewrite (playNextNote_eq w comp chords rhythmPattern mi ci ri note chord duration r)
    by done.
  exists comp. split; [done|].
  unfold pendingTicks in *. simpl.
  rewrite filter_app, Hnone, stamp_app, filter_app, stamp_ticks_none.
  2: { destruct (Qgtb r chordThreshold); [apply chordRequests_no_tick|constructor]. }
  simpl. apply Forall_singleton.
  destruct (lookup_next _ _ _ Hnote) as [note' Hnote'].
  destruct (lookup_next _ _ _ Hdur) as [duration' Hdur'].
  destruct (Qgtb r chordThreshold).
  - destruct (lookup_next _ _ _ Hchord) as [chord' Hchord'].
    unfold tickReady. simpl. by eexists chords, rhythmPattern, _, _, _, note', chord', duration'.
  - unfold tickReady. simpl. by eexists chords, rhythmPattern, _, _, _, note', chord, duration'.
Qed.

(** Every registered mood names an existing scale, progression and rhythm,
    and its composition starts on a note, a chord and a duration. *)
Lemma registered_composition key config rnd :
  prop moodConfigs key = Some config →
  ∃ mel chords rhythmPattern note chord duration,
    generateMelody config rnd = Some mel ∧
    prop chordProgressions (progression config) = Some chords ∧
    prop rhythms (rhythm config) = Some rhythmPattern ∧
    mel !! 0 = Some note ∧ chords !! 0 = Some chord ∧
    rhythmPattern !! 0 = Some duration.
Proof.
  unfold moodConfigs. cbn [prop].
  repeat (destruct (String.eqb _ key);
          [intros [= <-]; do 6 eexists; repeat split; reflexivity|]).
  discriminate.
Qed.

Lemma stop_ready w : ready_inv (stop w).
Proof.
  intros Hp. exfalso. revert Hp. unfold stop. simpl.
  by destruct (intervalId w) as [[|n]|].
Qed.

Lemma compose_ready key rnd r w :
  loop_inv w → ready_inv w → ready_inv (compose key rnd r w).
Proof.
  intros Hinv Hready. unfold compose.
  set (w1 := if isPlaying w then stop w else w).
  assert (ready_inv w1 ∧ pendingTicks w1 = []) as [H1 Hnone].
  { unfold w1. destruct (isPlaying w) eqn:Hp.
    - split; [apply stop_ready|by apply stop_ticks].
    - split; [done|]. by apply Hinv. }
  destruct (prop moodConfigs key) as [config|] eqn:Hkey; [|done].
  destruct (registered_composition key config rnd Hkey)
    as (mel & chords & rhythmPattern & note & chord & duration
        & -> & -> & -> & Hnote & Hchord & Hdur).
  by eapply playNextNote_ready.
Qed.

Lemma clearTimeout_ready id w : ready_inv w → ready_inv (clearTimeout id w).
Proof.
  intros Hready Hp. destruct (Hready Hp) as (comp & Hcomp & Hall).
  exists comp. split; [done|]. rewrite clearTimeout_ticks.
  rewrite Forall_forall in *. intros t Ht.
  apply list_elem_of_filter in Ht as [_ Ht]. by apply Hall.
Qed.

Lemma fire_ready id r w : loop_inv w → ready_inv w → ready_inv (fire id r w).
Proof.
  intros (_ & _ & Hone) Hready. unfold fire.
  destruct (List.find _ (timers w)) as [t|] eqn:Hfind; [|done].
  apply find_some in Hfind as [Hin Hid]. apply Nat.eqb_eq in Hid.
  apply list_elem_of_In in Hin.
  pose proof (clearTimeout_ready id w Hready) as Hclear.
  destruct (callback t) as [m c k|chordNote|note] eqn:Hcb; simpl; try done.
  destruct (isPlaying w) eqn:Hp.
  2: { unfold playNextNote. simpl. rewrite Hp. simpl. intros Hp'. simpl in Hp'. congruence. }
  assert (t ∈ pendingTicks w) as Ht.
  { unfold pendingTicks. apply list_elem_of_filter. split; [|done].
    unfold isTick. by rewrite Hcb. }
  destruct (Hready Hp) as (comp & Hcomp & Hall).
  rewrite Forall_forall in Hall.
  destruct (Hall t Ht) as (chords & rhythmPattern & mi & ci & ri & note & chord
                           & duration & Hcb' & ? & ? & ? & ? & ?).
  rewrite Hcb in Hcb'. injection Hcb' as -> -> ->.
  eapply playNextNote_ready; try done.
  rewrite clearTimeout_ticks.
  destruct Hone as [Hnone|(t' & Ht' & _ & _)]; [by rewrite Hnone in Ht; apply elem_of_nil in Ht|].
  rewrite Ht' in *. apply list_elem_of_singleton in Ht as ->.
  rewrite <- Hid. apply clear_single.
Qed.

Lemma run_ready evs : ready_inv (run evs).
Proof.
  unfold run. induction evs as [|ev evs IH] using rev_ind.
  - by intros Hp.
  - rewrite foldl_app. simpl. pose proof (run_inv evs) as Hinv. unfold run in Hinv.
    destruct ev; simpl.
    + by apply compose_ready.
    + apply stop_ready.
    + by apply fire_ready.
Qed.

(** Whatever happened before, a tick that is pending runs, when its timer
    fires, in a world where the composer plays a complete composition and
    the tick's cursors stand on a note, a chord and a duration. *)
Lemma pending_tick_ready evs t :
  t ∈ pendingTicks (run evs) →
  isPlaying (clearTimeout (timerId t) (run evs)) = true ∧
  ∃ comp, currentComposition (clearTimeout (timerId t) (run evs)) = Some comp ∧
          tickReady comp t.
Proof.
  intros Ht. destruct (run_inv evs) as (_ & Hoff & _).
  destruct (isPlaying (run evs)) eqn:Hp.
  - split; [done|]. destruct (run_ready evs Hp) as (comp & Hcomp & Hall).
    exists comp. split; [done|]. rewrite Forall_forall in Hall. by apply Hall.
  - rewrite Hoff in Ht by done. by apply elem_of_nil in Ht.
Qed.

(** ** Composing from a text without keywords *)

(** C8, as the code has it.  For a text in which no keyword of any mood
    occurs, [analyzeMood] returns "peaceful", which is no key of
    [moodConfigs]; [compose] on it then starts no composition: a composer
    that is not playing is left as it was, and one that is playing is
    stopped, [compose] calling [stop] before it looks the mood up. *)
Theorem compose_without_keywords (text : string) (rnd : nat → Q) (r : Q) (w : World) :
  keywordFree (toLowerCase text) →
  analyzeMood text = "peaceful" ∧
  prop moodConfigs (analyzeMood text) = None ∧
  compose (analyzeMood text) rnd r w = (if isPlaying w then stop w else w) ∧
  isPlaying (compose (analyzeMood text) rnd r w) = false ∧
  (isPlaying w = false → compose (analyzeMood text) rnd r w = w).
Proof.
  intros Hfree. rewrite (MoodAnalysis.analyzeMood_keywordFree text Hfree).
  assert (prop moodConfigs "peaceful" = None) as Hnone by reflexivity.
  split; [done|]. split; [done|]. unfold compose. rewrite Hnone.
  split; [done|]. split.
  - destruct (isPlaying w) eqn:Hp; [|done].
    unfold stop. simpl. by destruct (intervalId w) as [[|n]|].
  - by intros ->.
Qed.

Lemma compose_without_keywords_witness :
  keywordFree (toLowerCase "hello") ∧
  analyzeMood "hello" = "peaceful" ∧
  prop moodConfigs (analyzeMood "hello") = None ∧
  compose (analyzeMood "hello") (λ _, 0%Q) 0 init =
    (if isPlaying init then stop init else init) ∧
  isPlaying (compose (analyzeMood "hello") (λ _, 0%Q) 0 init) = false ∧
  (isPlaying init = false → compose (analyzeMood "hello") (λ _, 0%Q) 0 init = init).
Proof.
  assert (keywordFree (toLowerCase "hello")) as Hfree
    by (unfold keywordFree, keywords; repeat constructor).
  split; [exact Hfree|].
  apply (compose_without_keywords "hello" (λ _, 0%Q) 0 init Hfree).
Defined.

(** C8 as stated fails: "hello" contains no keyword, yet composing from it
    while the joy composition plays does not leave the composer as it was;
    the composition is stopped and its pending tick cancelled. *)
Lemma compose_without_keywords_stops_playing :
  keywordFree (toLowerCase "hello") ∧
  isPlaying (compose "joy" (λ _, 0%Q) 0 init) = true ∧
  length (pendingTicks (compose "joy" (λ _, 0%Q) 0 init)) = 1 ∧
  isPlaying (compose (analyzeMood "hello") (λ _, 0%Q) 0
               (compose "joy" (λ _, 0%Q) 0 init)) = false ∧
  pendingTicks (compose (analyzeMood "hello") (λ _, 0%Q) 0
                  (compose "joy" (λ _, 0%Q) 0 init)) = [] ∧
  compose (analyzeMood "hello") (λ _, 0%Q) 0 (compose "joy" (λ _, 0%Q) 0 init)
    ≠ compose "joy" (λ _, 0%Q) 0 init.
Proof.
  split; [unfold keywordFree, keywords; repeat constructor|].
  repeat (split; [by vm_compute|]).
  intros H. apply (f_equal isPlaying) in H. vm_compute in H. discriminate.
Qed.

End CompositionLoop.

(** * More on the audio engine: voices and polyphony *)

Module Voices.
Import PianoAudioEngine.

Local Open Scope nat_scope.

Lemma filter_osc_NoDup (l : list Sound) (k : nat) :
  NoDup (osc <$> l) → NoDup (osc <$> filter (λ x, osc x ≠ k) l).
Proof.
  induction l as [|x l IH]; simpl; [constructor|].
  intros Hnd. apply NoDup_cons in Hnd as [Hx Hl]. rewrite filter_cons.
  case_decide; [|by apply IH]. simpl. apply NoDup_cons. split; [|by apply IH].
  intros Hin. apply Hx. apply list_elem_of_fmap in Hin as (y & -> & Hy).
  apply list_elem_of_filter in Hy as [_ Hy]. apply list_elem_of_fmap. by exists y.
Qed.

Lemma releaseSustained_voices e n : voices_inv e → voices_inv (releaseSustained e n).
Proof.
  intros (Hmap & Hinj & Hfresh & Hnd). unfold releaseSustained.
  destruct (activeNotes e !! n) as [s|] eqn:E; [|done].
  split; [|split; [|split]]; simpl.
  - intros m t Hm.
    destruct (decide (n = m)) as [<-|Hne]; [by rewrite lookup_delete_eq in Hm|].
    rewrite lookup_delete_ne in Hm by done. split; [|by apply (Hmap m)].
    apply list_elem_of_filter. split; [|by apply (Hmap m)].
    intros Hosc. apply Hne. symmetry. by eapply Hinj.
  - intros n1 m s1 t H1 H2.
    destruct (decide (n = n1)) as [<-|?]; [by rewrite lookup_delete_eq in H1|].
    destruct (decide (n = m)) as [<-|?]; [by rewrite lookup_delete_eq in H2|].
    rewrite lookup_delete_ne in H1, H2 by done. eauto.
  - intros s1 Hs. apply list_elem_of_filter in Hs as [_ Hs]. by apply Hfresh.
  - by apply filter_osc_NoDup.
Qed.

Lemma stopNote_voices e n : voices_inv e → voices_inv (stopNote n e).
Proof.
  intros H. unfold stopNote. destruct (sustainActive e); [done|].
  by apply (releaseSustained_voices e n).
Qed.

Lemma playNote_voices e n : voices_inv e → voices_inv (fst (playNote n e)).
Proof.
  intros H. unfold playNote.
  destruct (negb (truthy (frequencyOf n))); [done|].
  destruct (frequencyOf n) as [f|] eqn:F; [|done].
  set (e1 := if bool_decide _ then _ else _).
  assert (voices_inv e1) as (Hmap & Hinj & Hfresh & Hnd).
  { unfold e1. case_bool_decide; [by apply stopNote_voices|done]. }
  split; [|split; [|split]]; simpl.
  - intros m t Hm. destruct (decide (n = m)) as [<-|Hne].
    + rewrite lookup_insert_eq in Hm. injection Hm as <-. split; [|done].
      apply elem_of_app. right. by apply list_elem_of_singleton.
    + rewrite lookup_insert_ne in Hm by done. split; [|by apply (Hmap m)].
      apply elem_of_app. left. by apply (Hmap m).
  - intros n1 m s1 t H1 H2 Hosc.
    destruct (decide (n = n1)) as [<-|?], (decide (n = m)) as [<-|?]; try done.
    + rewrite lookup_insert_eq in H1. rewrite lookup_insert_ne in H2 by done.
      injection H1 as <-. apply Hmap in H2 as [H2 _]. apply Hfresh in H2.
      simpl in Hosc. lia.
    + rewrite lookup_insert_eq in H2. rewrite lookup_insert_ne in H1 by done.
      injection H2 as <-. apply Hmap in H1 as [H1 _]. apply Hfresh in H1.
      simpl in Hosc. lia.
    + rewrite lookup_insert_ne in H1, H2 by done. eauto.
  - intros s1 Hs. apply elem_of_app in Hs as [Hs|Hs].
    + apply Hfresh in Hs. lia.
    + apply list_elem_of_singleton in Hs as ->. simpl. lia.
  - rewrite fmap_app. apply NoDup_app. split; [done|]. split; [|apply NoDup_singleton].
    intros x Hx Hx'. apply list_elem_of_singleton in Hx'. simpl in Hx'. subst x.
    apply list_elem_of_fmap in Hx as (y & Hy & Hin). apply Hfresh in Hin. lia.
Qed.

Lemma flush_voices l : ∀ e, voices_inv e → voices_inv (foldl releaseSustained e l).
Proof.
  induction l as [|n l IH]; intros e H; simpl; [done|].
  by apply IH, releaseSustained_voices.
Qed.

Lemma setSustain_voices e b : voices_inv e → voices_inv (setSustain b e).
Proof.
  intros H. unfold setSustain. destruct b; simpl; [done|].
  by apply (flush_voices (sustainedNotes e) (with_sustainActive false e)).
Qed.

Lemma run_voices ops : voices_inv (run ops).
Proof.
  unfold run. induction ops as [|o ops IH] using rev_ind.
  - split; [|split; [|split]]; simpl.
    + intros n s H. by rewrite lookup_empty in H.
    + intros n m s t H. by rewrite lookup_empty in H.
    + intros s Hs. by apply elem_of_nil in Hs.
    + constructor.
  - rewrite foldl_app. simpl. destruct o; simpl.
    + by apply playNote_voices.
    + by apply stopNote_voices.
    + by apply setSustain_voices.
Qed.

(** X1.  After any sequence of presses, releases and pedal changes, the
    sound the map holds for a note is sounding, at the frequency the table
    gives that note, and is among the note's live voices. *)
Theorem active_note_is_audible (ops : list Op) (n : string) (s : Sound) :
  activeNotes (run ops) !! n = Some s →
  s ∈ sounding (run ops) ∧
  frequencyOf n = Some (frequency s) ∧
  s ∈ liveVoices n (run ops).
Proof.
  intros Hs. destruct (run_voices ops) as (Hmap & _).
  destruct (Hmap n s Hs) as [Hin Hf]. split; [done|]. split; [done|].
  unfold liveVoices. rewrite Hf. apply list_elem_of_filter. split; [|done].
  apply Qeq_bool_iff. reflexivity.
Qed.

Lemma active_note_is_audible_witness :
  activeNotes (run [Press "C4"; Press "E4"]) !! "E4" = Some (mkSound 1 (32963 # 100)) ∧
  mkSound 1 (32963 # 100) ∈ sounding (run [Press "C4"; Press "E4"]) ∧
  frequencyOf "E4" = Some (frequency (mkSound 1 (32963 # 100))) ∧
  mkSound 1 (32963 # 100) ∈ liveVoices "E4" (run [Press "C4"; Press "E4"]).
Proof.
  split; [reflexivity|].
  apply (active_note_is_audible [Press "C4"; Press "E4"] "E4"). reflexivity.
Defined.

(** ** Polyphony: a note's press and release leave the other notes alone *)

Lemma playNote_other e n m :
  n ≠ m → activeNotes (fst (playNote n e)) !! m = activeNotes e !! m.
Proof.
  intros Hne. unfold playNote.
  destruct (negb (truthy (frequencyOf n))); [done|].
  destruct (frequencyOf n) as [f|]; [|done]. simpl.
  rewrite lookup_insert_ne by done.
  case_bool_decide; [|done]. unfold stopNote.
  destruct (sustainActive e); [done|].
  by apply VoiceManager.releaseSustained_other.
Qed.

Lemma stopNote_other e n m :
  n ≠ m → activeNotes (stopNote n e) !! m = activeNotes e !! m.
Proof.
  intros Hne. unfold stopNote. destruct (sustainActive e); [done|].
  by apply VoiceManager.releaseSustained_other.
Qed.

(** X2.  In any reachable state, pressing or releasing a note changes
    neither the map entry of any other note nor the fact that the other
    note's sound is sounding. *)
Theorem other_notes_untouched (ops : list Op) (n m : string) (s : Sound) :
  n ≠ m →
  activeNotes (run ops) !! m = Some s →
  (activeNotes (press n (run ops)) !! m = Some s ∧ s ∈ sounding (press n (run ops))) ∧
  (activeNotes (release n (run ops)) !! m = Some s ∧ s ∈ sounding (release n (run ops))).
Proof.
  intros Hne Hs.
  assert (activeNotes (press n (run ops)) !! m = Some s) as Hp
    by (unfold press; by rewrite playNote_other).
  assert (activeNotes (release n (run ops)) !! m = Some s) as Hr
    by (unfold release; by rewrite stopNote_other).
  split; (split; [done|]).
  - destruct (run_voices (ops ++ [Press n])) as (Hmap & _).
    unfold run in Hmap. rewrite foldl_app in Hmap. by apply (Hmap m).
  - destruct (run_voices (ops ++ [Release n])) as (Hmap & _).
    unfold run in Hmap. rewrite foldl_app in Hmap. by apply (Hmap m).
Qed.

Lemma other_notes_untouched_witness :
  "C4" ≠ "E4" ∧
  activeNotes (run [Press "E4"; Press "C4"]) !! "E4" = Some (mkSound 0 (32963 # 100)) ∧
  (activeNotes (press "C4" (run [Press "E4"; Press "C4"])) !! "E4"
     = Some (mkSound 0 (32963 # 100)) ∧
   mkSound 0 (32963 # 100) ∈ sounding (press "C4" (run [Press "E4"; Press "C4"]))) ∧
  (activeNotes (release "C4" (run [Press "E4"; Press "C4"])) !! "E4"
     = Some (mkSound 0 (32963 # 100)) ∧
   mkSound 0 (32963 # 100) ∈ sounding (release "C4" (run [Press "E4"; Press "C4"]))).
Proof.
  assert ("C4" ≠ "E4") as Hne by discriminate.
  split; [exact Hne|]. split; [reflexivity|].
  apply (other_notes_untouched [Press "E4"; Press "C4"] "C4" "E4"); [exact Hne|reflexivity].
Defined.

(** ** Without the pedal there is one voice per sounding note *)

(** Distinct notes of the table have distinct frequencies. *)
Lemma lookup_note_elem table n f :
  lookup_note table n = Some f → (n, f) ∈ table.
Proof.
  induction table as [|[k g] table IH]; simpl; [done|].
  destruct (String.eqb_spec k n) as [->|_].
  - intros [= ->]. left.
  - intros H. right. by apply IH.
Qed.

Lemma noteFrequencies_distinct :
  Forall (λ p : string * Q,
            Forall (λ q : string * Q, Qeq_bool p.2 q.2 = true → p.1 = q.1)
                   noteFrequencies)
         noteFrequencies.
Proof. apply (bool_decide_unpack _). by vm_compute. Qed.

Lemma frequencyOf_injective n m f g :
  frequencyOf n = Some f → frequencyOf m = Some g → Qeq_bool f g = true → n = m.
Proof.
  intros Hn Hm. apply lookup_note_elem in Hn, Hm.
  pose proof noteFrequencies_distinct as H. rewrite Forall_forall in H.
  specialize (H _ Hn). rewrite Forall_forall in H. exact (H _ Hm).
Qed.

Lemma releaseSustained_no_orphans e n :
  voices_inv e → no_orphans e → no_orphans (releaseSustained e n).
Proof.
  intros (Hmap & Hinj & _) [Hup Hall]. unfold releaseSustained.
  destruct (activeNotes e !! n) as [s|] eqn:E; [|done].
  split; [done|]. simpl. intros s' Hs'.
  apply list_elem_of_filter in Hs' as [Hosc Hs'].
  destruct (Hall s' Hs') as [n' Hn']. exists n'.
  rewrite lookup_delete_ne; [done|]. intros <-. congruence.
Qed.

Lemma stopNote_no_orphans e n :
  voices_inv e → no_orphans e → no_orphans (stopNote n e).
Proof.
  intros Hv Ho. unfold stopNote. destruct Ho as [Hup Hall]. rewrite Hup.
  by apply (releaseSustained_no_orphans e n).
Qed.

Lemma playNote_no_orphans e n :
  voices_inv e → no_orphans e → no_orphans (fst (playNote n e)).
Proof.
  intros Hv Ho. unfold playNote.
  destruct (negb (truthy (frequencyOf n))); [done|].
  destruct (frequencyOf n) as [f|] eqn:F; [|done].
  set (e1 := if bool_decide _ then _ else _).
  assert (no_orphans e1 ∧ activeNotes e1 !! n = None) as [[Hup Hall] Hnone].
  { unfold e1. case_bool_decide as Hhas.
    - split; [by apply stopNote_no_orphans|].
      unfold stopNote. destruct Ho as [-> _].
      apply VoiceManager.releaseSustained_same.
    - split; [done|]. destruct (activeNotes e !! n) eqn:E; [|done].
      exfalso. apply Hhas. by eexists. }
  split; [done|]. simpl. intros s Hs.
  apply elem_of_app in Hs as [Hs|Hs].
  - destruct (Hall s Hs) as [n' Hn']. exists n'.
    rewrite lookup_insert_ne; [done|]. intros <-. congruence.
  - apply list_elem_of_singleton in Hs as ->. exists n. apply lookup_insert_eq.
Qed.

Lemma run_no_orphans ops : pedalFree ops → no_orphans (run ops).
Proof.
  unfold run, pedalFree. induction ops as [|o ops IH] using rev_ind; intros Hfree.
  - split; [done|]. intros s Hs. by apply elem_of_nil in Hs.
  - apply Forall_app in Hfree as [Hfree Ho]. rewrite Forall_singleton in Ho.
    rewrite foldl_app. simpl. specialize (IH Hfree).
    pose proof (run_voices ops) as Hv. unfold run in Hv.
    destruct o as [n|n|[|]]; simpl.
    + by apply playNote_no_orphans.
    + by apply stopNote_no_orphans.
    + done.
    + destruct IH as [Hup Hall]. unfold setSustain. simpl.
      pose proof (VoiceManager.run_pedal ops Hup) as Hnil. unfold run in Hnil.
      rewrite Hnil. simpl. split; [done|]. exact Hall.
Qed.

Lemma filter_unique {A} (P : A → Prop) `{!∀ x, Decision (P x)} (l : list A) (a : A) :
  NoDup l → a ∈ l → P a → (∀ x, x ∈ l → P x → x = a) → filter P l = [a].
Proof.
  induction l as [|y l IH]; intros Hnd Ha HP Huniq; [by apply elem_of_nil in Ha|].
  apply NoDup_cons in Hnd as [Hy Hnd]. rewrite filter_cons.
  apply elem_of_cons in Ha as [->|Ha].
  - rewrite decide_True by done. f_equal.
    destruct (filter P l) as [|z r] eqn:E; [done|]. exfalso.
    assert (z ∈ filter P l) as Hz by (rewrite E; left).
    apply list_elem_of_filter in Hz as [HPz Hz].
    assert (z = y) as -> by (apply Huniq; [by right|done]). done.
  - case_decide as HPy.
    + exfalso. assert (y = a) as -> by (apply Huniq; [left|done]). done.
    + apply IH; try done. intros x Hx. apply Huniq. by right.
Qed.

Lemma filter_none {A} (P : A → Prop) `{!∀ x, Decision (P x)} (l : list A) :
  (∀ x, x ∈ l → ¬ P x) → filter P l = [].
Proof.
  induction l as [|y l IH]; intros Hall; [done|].
  rewrite filter_cons, decide_False by (apply Hall; left).
  apply IH. intros x Hx. apply Hall. by right.
Qed.

(** X3.  If the pedal is never pressed, then after any sequence of presses
    and releases a note has exactly one live voice when it has an entry in
    the map, that entry, and none otherwise. *)
Theorem one_voice_per_note_without_pedal (ops : list Op) (n : string) :
  pedalFree ops →
  liveVoices n (run ops) =
    match activeNotes (run ops) !! n with
    | Some s => [s]
    | None => []
    end.
Proof.
  intros Hfree. destruct (run_no_orphans ops Hfree) as [_ Hall].
  destruct (run_voices ops) as (Hmap & Hinj & _ & Hnd).
  apply NoDup_fmap_1 in Hnd. unfold liveVoices.
  destruct (frequencyOf n) as [f|] eqn:F.
  - assert (∀ x, x ∈ sounding (run ops) → Qeq_bool (frequency x) f = true →
                 activeNotes (run ops) !! n = Some x) as Hown.
    { intros x Hx Hq. destruct (Hall x Hx) as [m Hm].
      destruct (Hmap m x Hm) as [_ Hfm].
      by rewrite (frequencyOf_injective n m f (frequency x) F Hfm)
        by (by rewrite Qeq_bool_sym). }
    destruct (activeNotes (run ops) !! n) as [s|] eqn:E.
    + destruct (Hmap n s E) as [Hin Hfs]. apply filter_unique; try done.
      * apply Qeq_bool_iff. rewrite F in Hfs. injection Hfs as ->. reflexivity.
      * intros x Hx Hq. specialize (Hown x Hx Hq). congruence.
    + apply filter_none. intros x Hx Hq. specialize (Hown x Hx Hq). congruence.
  - destruct (activeNotes (run ops) !! n) as [s|] eqn:E; [|done].
    destruct (Hmap n s E) as [_ Hfs]. congruence.
Qed.

Lemma one_voice_per_note_without_pedal_witness :
  pedalFree [Press "C4"; Press "C4"; Press "E4"; Release "E4"] ∧
  liveVoices "C4" (run [Press "C4"; Press "C4"; Press "E4"; Release "E4"]) =
    match activeNotes (run [Press "C4"; Press "C4"; Press "E4"; Release "E4"]) !! "C4" with
    | Some s => [s]
    | None => []
    end.
Proof.
  assert (pedalFree [Press "C4"; Press "C4"; Press "E4"; Release "E4"]) as Hfree
    by (repeat constructor; discriminate).
  split; [exact Hfree|].
  apply (one_voice_per_note_without_pedal _ "C4" Hfree).
Defined.

(** X4.  With the pedal down, a note of the table that is pressed and then
    released keeps its entry and keeps sounding, and is in the held set;
    lifting the pedal then stops that sound, removes the entry and empties
    the held set. *)
Theorem sustain_defers_release (e : Engine) (n : string) (f : Q) :
  sustainActive e = true →
  frequencyOf n = Some f →
  ∃ s,
    activeNotes (release n (press n e)) !! n = Some s ∧
    s ∈ sounding (release n (press n e)) ∧
    n ∈ sustainedNotes (release n (press n e)) ∧
    (s ∉ sounding (setSustain false (release n (press n e)))) ∧
    activeNotes (setSustain false (release n (press n e))) !! n = None ∧
    sustainedNotes (setSustain false (release n (press n e))) = [].
Proof.
  intros Hdown F.
  assert (sustainActive (press n e) = true ∧
          activeNotes (press n e) !! n = Some (mkSound (nextOsc (press n e) - 1) f) ∧
          mkSound (nextOsc (press n e) - 1) f ∈ sounding (press n e))
    as (Hdown' & Hentry & Hsound).
  { unfold press, playNote.
    rewrite F, (VoiceManager.frequencyOf_truthy n f F). simpl.
    replace (nextOsc _ - 0) with (nextOsc (if bool_decide (is_Some (activeNotes e !! n))
                                           then stopNote n e else e))
      by lia.
    repeat split.
    - case_bool_decide; [|done]. unfold stopNote. by rewrite Hdown.
    - apply lookup_insert_eq.
    - apply elem_of_app. right. by apply list_elem_of_singleton. }
  set (e1 := press n e) in *. set (s := mkSound _ f) in *.
  assert (release n e1 = with_sustainedNotes (set_add n (sustainedNotes e1)) e1) as Hrel
    by (unfold release, stopNote; by rewrite Hdown').
  assert (n ∈ sustainedNotes (release n e1)) as Hheld.
  { rewrite Hrel. simpl. unfold set_add. case_decide; [done|].
    apply elem_of_app. right. by apply list_elem_of_singleton. }
  exists s. rewrite Hrel in *. simpl in Hheld. repeat split; try done.
  - by apply (VoiceManager.flush_stops _ _ n s).
  - by apply (VoiceManager.flush_removed _ _ n).
Qed.

Lemma sustain_defers_release_witness :
  sustainActive (setSustain true init) = true ∧
  frequencyOf "A4" = Some (44000 # 100) ∧
  ∃ s,
    activeNotes (release "A4" (press "A4" (setSustain true init))) !! "A4" = Some s ∧
    s ∈ sounding (release "A4" (press "A4" (setSustain true init))) ∧
    "A4" ∈ sustainedNotes (release "A4" (press "A4" (setSustain true init))) ∧
    (s ∉ sounding (setSustain false (release "A4" (press "A4" (setSustain true init))))) ∧
    activeNotes (setSustain false (release "A4" (press "A4" (setSustain true init))))
      !! "A4" = None ∧
    sustainedNotes (setSustain false (release "A4" (press "A4" (setSustain true init))))
      = [].
Proof.
  split; [reflexivity|]. split; [reflexivity|].
  apply (sustain_defers_release (setSustain true init) "A4" (44000 # 100)); reflexivity.
Defined.

End Voices.

(** * More on recording: round trips and timing *)

Module Replay.
Import RecordingEngine.

Local Open Scope Z_scope.

(** ** What a session records *)

Lemma keyEvents_recorded keys : ∀ w,
  recording (engine w) = true →
  ∃ events,
    recordedNotes (engine (foldl keyEvent w keys)) = recordedNotes (engine w) ++ events ∧
    callOf <$> events = keyCall <$> keys ∧
    timestamp <$> events = offsets (now w - startTime (engine w)) keys ∧
    snd <$> calls (foldl keyEvent w keys) = (snd <$> calls w) ++ (keyCall <$> keys) ∧
    recording (engine (foldl keyEvent w keys)) = true.
Proof.
  induction keys as [|[[dt n] p] keys IH]; intros w R; simpl.
  - exists []. by rewrite !app_nil_r.
  - set (w1 := if p then _ else _).
    assert (recording (engine w1) = true ∧
            recordedNotes (engine w1) =
              recordedNotes (engine w) ++ [mkEvent n (now w + Z.of_nat dt - startTime (engine w)) p] ∧
            calls w1 = calls w ++ [(now w + Z.of_nat dt, keyCall (dt, n, p))] ∧
            now w1 = now w + Z.of_nat dt ∧
            startTime (engine w1) = startTime (engine w)) as (R1 & N1 & C1 & T1 & S1).
    { unfold w1, pressKey, releaseKey, recordNote, logCall, advance.
      destruct p; cbn; rewrite R; cbn; rewrite ?R; done. }
    destruct (IH w1 R1) as (events & Hrec & Hcalls & Hts & Hlog & Hr).
    exists (mkEvent n (now w + Z.of_nat dt - startTime (engine w)) p :: events).
    rewrite Hrec, N1, <- app_assoc. split; [done|].
    rewrite !fmap_cons, Hcalls, Hts, Hlog, C1, T1, S1, fmap_app, <- app_assoc. simpl.
    replace (now w - startTime (engine w) + Z.of_nat dt)
      with (now w + Z.of_nat dt - startTime (engine w)) by lia.
    split; [|done]. by f_equal.
Qed.

Lemma session_recorded t0 keys :
  callOf <$> recordedNotes (engine (session t0 keys)) = keyCall <$> keys ∧
  timestamp <$> recordedNotes (engine (session t0 keys)) = offsets 0 keys ∧
  snd <$> calls (session t0 keys) = keyCall <$> keys.
Proof.
  unfold session. simpl.
  destruct (keyEvents_recorded keys (startRecording (mkWorld init t0 [])) eq_refl)
    as (events & -> & Hcalls & Hts & Hlog & _).
  simpl in *. rewrite Z.sub_diag in Hts. done.
Qed.

Lemma offsets_lower since keys : Forall (λ t, since ≤ t) (offsets since keys).
Proof.
  revert since. induction keys as [|[[dt n] p] keys IH]; intros since; simpl.
  - constructor.
  - constructor; [lia|]. eapply Forall_impl; [apply IH|]. simpl. intros; lia.
Qed.

Lemma recorded_offsets_aux t0 keys :
  Forall (λ ev, 0 ≤ timestamp ev) (recordedNotes (engine (session t0 keys))).
Proof.
  destruct (session_recorded t0 keys) as (_ & Hts & _).
  pose proof (offsets_lower 0 keys) as Hlow. rewrite <- Hts in Hlow.
  rewrite Forall_forall in Hlow. apply Forall_forall. intros ev Hev.
  apply Hlow. apply list_elem_of_fmap. by exists ev.
Qed.

(** X5.  The offsets a session records are the times elapsed since
    [startRecording], whatever the wall-clock time at which the session
    began; in particular none is negative. *)
Theorem recorded_offsets (t0 : Z) (keys : list KeyEvent) :
  timestamp <$> recordedNotes (engine (session t0 keys)) = offsets 0 keys ∧
  Forall (λ ev, 0 ≤ timestamp ev) (recordedNotes (engine (session t0 keys))).
Proof.
  destruct (session_recorded t0 keys) as (_ & Hts & _). split; [done|].
  apply recorded_offsets_aux.
Qed.

(** X6.  Recording a performance and playing it back outside a session
    sends the sink the calls of the performance, the same presses and
    releases of the same notes in the same order. *)
Theorem record_then_playback (t0 : Z) (keys : list KeyEvent) (tm : Timing)
    (fuel : nat) (w : World) :
  engine w = engine (session t0 keys) →
  (length keys ≤ fuel)%nat →
  ∃ w' fired,
    playback fuel tm w = Some w' ∧
    calls w' = calls w ++ fired ∧
    snd <$> fired = keyCall <$> keys ∧
    snd <$> fired = snd <$> calls (session t0 keys).
Proof.
  intros E Hfuel.
  destruct (session_recorded t0 keys) as (Hcalls & _ & Hlog).
  destruct (EventRecorder.session_chronological t0 keys) as [_ R].
  rewrite <- E in Hcalls, R.
  assert (length (recordedNotes (engine w)) = length keys) as Hlen
    by (by rewrite <- (length_fmap callOf), Hcalls, length_fmap).
  unfold playback. destruct (Nat.eqb_spec (length (recordedNotes (engine w))) 0) as [H0|_].
  - exists w, []. rewrite app_nil_r.
    destruct keys; [|simpl in Hlen; lia]. by rewrite Hlog.
  - destruct (EventRecorder.playLoop_idle tm (now w) fuel 0%nat w R)
      as (w' & fired & P & _ & C & Hsnd & _); [lia|].
    exists w', fired. rewrite drop_0 in Hsnd. rewrite Hsnd, Hlog, Hcalls. done.
Qed.

Lemma record_then_playback_witness :
  let keys := [(10%nat, "C4", true); (200%nat, "E4", true); (40%nat, "C4", false)] in
  let tm := mkTiming (λ _, 2%nat) (λ _, 5%nat) in
  engine (session 0 keys) = engine (session 0 keys) ∧
  (length keys ≤ 3)%nat ∧
  ∃ w' fired,
    playback 3 tm (session 0 keys) = Some w' ∧
    calls w' = calls (session 0 keys) ++ fired ∧
    snd <$> fired = keyCall <$> keys ∧
    snd <$> fired = snd <$> calls (session 0 keys).
Proof.
  intros keys tm. split; [reflexivity|]. split; [simpl; lia|].
  apply (record_then_playback 0 keys tm 3 (session 0 keys)); [reflexivity|simpl; lia].
Defined.

(** ** Playback with ideal timers *)

Lemma playEvent_ideal tm anchor i ev w :
  recording (engine w) = false →
  ideal tm →
  now w ≤ anchor + timestamp ev →
  playEvent tm anchor i ev w =
    mkWorld (engine w) (anchor + timestamp ev)
            (calls w ++ [(anchor + timestamp ev, callOf ev)]).
Proof.
  intros R Hideal Hnow. destruct (Hideal i) as [He Hl].
  unfold playEvent. rewrite He, Hl. change (Z.of_nat 0) with 0.
  set (w2 := if 0 <? _ then _ else _).
  assert (w2 = mkWorld (engine w) (anchor + timestamp ev) (calls w)) as ->.
  { unfold w2, advance. simpl.
    destruct (Z.ltb_spec 0 (anchor + timestamp ev - (now w + 0))); simpl; f_equal; lia. }
  unfold callOf, pressKey, releaseKey, recordNote, logCall.
  destruct (isPress ev); simpl; by rewrite R.
Qed.

Lemma playLoop_ideal tm anchor : ∀ fuel i w,
  recording (engine w) = false →
  ideal tm →
  chronological (recordedNotes (engine w)) →
  (∀ ev, recordedNotes (engine w) !! i = Some ev → now w ≤ anchor + timestamp ev) →
  (length (recordedNotes (engine w)) - i ≤ fuel)%nat →
  ∃ w',
    playLoop fuel tm anchor i w = Some w' ∧
    engine w' = engine w ∧
    calls w' = calls w ++
      ((λ ev, (anchor + timestamp ev, callOf ev)) <$> drop i (recordedNotes (engine w))).
Proof.
  induction fuel as [|fuel IH]; intros i w R Hideal Hchron Hnow Hfuel.
  - assert (recordedNotes (engine w) !! i = None) as Hnone
      by (apply lookup_ge_None; lia).
    exists w. simpl. rewrite Hnone, drop_ge by lia. by rewrite app_nil_r.
  - simpl. destruct (recordedNotes (engine w) !! i) as [ev|] eqn:L.
    + rewrite (playEvent_ideal tm anchor i ev w R Hideal (Hnow ev eq_refl)).
      destruct (IH (S i) (mkWorld (engine w) (anchor + timestamp ev)
                                  (calls w ++ [(anchor + timestamp ev, callOf ev)])))
        as (w' & -> & E & C); simpl; try done.
      * intros ev' L'. pose proof (Hchron i (S i) ev ev' ltac:(lia) L L'). lia.
      * lia.
      * exists w'. simpl in *. rewrite (drop_S _ _ _ L), fmap_cons.
        repeat split; [done|]. by rewrite C, <- app_assoc.
    + exists w. rewrite drop_ge by (by apply lookup_ge_None). by rewrite app_nil_r.
Qed.

(** X7.  With timers that fire exactly on time, playback outside a
    session makes the call of every recorded event exactly at the playback
    anchor plus the event's offset: the timing of the performance is
    reproduced. *)
Theorem playback_reproduces_timing (t0 : Z) (keys : list KeyEvent) (tm : Timing)
    (fuel : nat) (w : World) :
  engine w = engine (session t0 keys) →
  ideal tm →
  (length keys ≤ fuel)%nat →
  ∃ w',
    playback fuel tm w = Some w' ∧
    calls w' = calls w ++
      ((λ ev, (now w + timestamp ev, callOf ev)) <$> recordedNotes (engine w)).
Proof.
  intros E Hideal Hfuel.
  destruct (session_recorded t0 keys) as (Hcalls & _ & _).
  pose proof (recorded_offsets_aux t0 keys) as Hpos.
  destruct (EventRecorder.session_chronological t0 keys) as [Hchron R].
  rewrite <- E in Hcalls, R, Hchron, Hpos.
  assert (length (recordedNotes (engine w)) = length keys) as Hlen
    by (by rewrite <- (length_fmap callOf), Hcalls, length_fmap).
  unfold playback. destruct (Nat.eqb_spec (length (recordedNotes (engine w))) 0) as [H0|_].
  - exists w. destruct (recordedNotes (engine w)); [|simpl in H0; lia].
    by rewrite app_nil_r.
  - destruct (playLoop_ideal tm (now w) fuel 0%nat w R Hideal Hchron)
      as (w' & P & _ & C); [|lia|].
    + intros ev L. rewrite Forall_forall in Hpos.
      apply list_elem_of_lookup_2, Hpos in L. lia.
    + exists w'. by rewrite drop_0 in C.
Qed.

Lemma playback_reproduces_timing_witness :
  let keys := [(10%nat, "C4", true); (200%nat, "E4", true); (40%nat, "C4", false)] in
  let tm := mkTiming (λ _, 0%nat) (λ _, 0%nat) in
  let w := advance 5000 (session 0 keys) in
  engine w = engine (session 0 keys) ∧
  ideal tm ∧
  (length keys ≤ 3)%nat ∧
  ∃ w',
    playback 3 tm w = Some w' ∧
    calls w' = calls w ++
      ((λ ev, (now w + timestamp ev, callOf ev)) <$> recordedNotes (engine w)).
Proof.
  intros keys tm w.
  assert (ideal tm) as Hideal by (intros i; split; reflexivity).
  split; [reflexivity|]. split; [exact Hideal|]. split; [simpl; lia|].
  apply (playback_reproduces_timing 0 keys tm 3 w); [reflexivity|exact Hideal|simpl; lia].
Defined.

(** ** Playing back twice, and playing back while recording *)

(** X8.  Playback outside a session leaves the recorder as it was, so that
    a second playback, under whatever scheduling delays, sends the sink
    the same calls again. *)
Theorem playback_keeps_the_recording (t0 : Z) (keys : list KeyEvent)
    (tm1 tm2 : Timing) (fuel : nat) (w : World) :
  engine w = engine (session t0 keys) →
  (length keys ≤ fuel)%nat →
  ∃ w1 fired1 w2 fired2,
    playback fuel tm1 w = Some w1 ∧
    engine w1 = engine w ∧
    calls w1 = calls w ++ fired1 ∧
    playback fuel tm2 w1 = Some w2 ∧
    engine w2 = engine w ∧
    calls w2 = calls w1 ++ fired2 ∧
    snd <$> fired2 = snd <$> fired1.
Proof.
  intros E Hfuel.
  destruct (session_recorded t0 keys) as (Hcalls & _ & _).
  destruct (EventRecorder.session_chronological t0 keys) as [_ R].
  rewrite <- E in Hcalls, R.
  assert (length (recordedNotes (engine w)) = length keys) as Hlen
    by (by rewrite <- (length_fmap callOf), Hcalls, length_fmap).
  assert (∀ tm w0, engine w0 = engine w →
            ∃ w' fired, playback fuel tm w0 = Some w' ∧ engine w' = engine w ∧
                        calls w' = calls w0 ++ fired ∧
                        snd <$> fired = callOf <$> recordedNotes (engine w)) as Hplay.
  { intros tm w0 E0. unfold playback. rewrite E0.
    destruct (Nat.eqb_spec (length (recordedNotes (engine w))) 0) as [H0|_].
    - exists w0, []. rewrite app_nil_r.
      destruct (recordedNotes (engine w)); [done|simpl in H0; lia].
    - assert (recording (engine w0) = false) as R0 by (by rewrite E0).
      destruct (EventRecorder.playLoop_idle tm (now w0) fuel 0%nat w0 R0)
        as (w' & fired & P & E' & C & Hsnd & _); [rewrite E0; lia|].
      exists w', fired. rewrite E0, drop_0 in Hsnd.
      repeat split; try done. congruence. }
  destruct (Hplay tm1 w eq_refl) as (w1 & fired1 & P1 & E1 & C1 & S1).
  destruct (Hplay tm2 w1 E1) as (w2 & fired2 & P2 & E2 & C2 & S2).
  exists w1, fired1, w2, fired2. repeat split; try done. by rewrite S1, S2.
Qed.

Lemma playback_keeps_the_recording_witness :
  let keys := [(10%nat, "C4", true); (40%nat, "C4", false)] in
  let tm1 := mkTiming (λ _, 1%nat) (λ _, 4%nat) in
  let tm2 := mkTiming (λ _, 0%nat) (λ _, 0%nat) in
  engine (session 0 keys) = engine (session 0 keys) ∧
  (length keys ≤ 2)%nat ∧
  ∃ w1 fired1 w2 fired2,
    playback 2 tm1 (session 0 keys) = Some w1 ∧
    engine w1 = engine (session 0 keys) ∧
    calls w1 = calls (session 0 keys) ++ fired1 ∧
    playback 2 tm2 w1 = Some w2 ∧
    engine w2 = engine (session 0 keys) ∧
    calls w2 = calls w1 ++ fired2 ∧
    snd <$> fired2 = snd <$> fired1.
Proof.
  intros keys tm1 tm2. split; [reflexivity|]. split; [simpl; lia|].
  apply (playback_keeps_the_recording 0 keys tm1 tm2 2 (session 0 keys));
    [reflexivity|simpl; lia].
Defined.

(** X9.  Playback started while a recording session is open and at least
    one event is recorded never completes: every call it makes on the sink
    is recorded as a new event of the array it iterates over. *)
Theorem playback_while_recording_never_ends (tm : Timing) (w : World) (fuel : nat) :
  recording (engine w) = true →
  recordedNotes (engine w) ≠ [] →
  playback fuel tm w = None.
Proof.
  intros R Hne. unfold playback.
  destruct (recordedNotes (engine w)) as [|ev rec] eqn:L; [done|]. simpl.
  apply EventRecorder.playLoop_while_recording; [done|]. rewrite L. simpl. lia.
Qed.

Lemma playback_while_recording_never_ends_witness :
  let w := mkWorld (mkEngine true [mkEvent "C4" 0 true] 0) 100 [] in
  recording (engine w) = true ∧
  recordedNotes (engine w) ≠ [] ∧
  playback 1000 (mkTiming (λ _, 0%nat) (λ _, 0%nat)) w = None.
Proof.
  intros w. split; [reflexivity|]. split; [discriminate|].
  apply (playback_while_recording_never_ends _ w 1000); [reflexivity|discriminate].
Defined.

End Replay.

(** * The metronome's timer *)

Module Beat.
Import Metronome.

Local Open Scope nat_scope.

Lemma start_beat w : beat_inv w → beat_inv (start w).
Proof.
  intros H. pose proof H as (Hpos & Hbpm & Hoff & Hon). unfold start.
  destruct (isPlaying w) eqn:Hp; [done|]. simpl.
  split; [done|]. split; [done|]. split; [done|]. intros _.
  exists (nextHandle w). rewrite (Hoff eq_refl), Hbpm. done.
Qed.

Lemma stop_beat w : beat_inv w → beat_inv (stop w) ∧ intervals (stop w) = [].
Proof.
  intros (Hpos & Hbpm & Hoff & Hon).
  assert (intervals (stop w) = []) as Hnone.
  { unfold stop. destruct (isPlaying w) eqn:Hp.
    - destruct (Hon eq_refl) as (id & Hid & -> & ->).
      destruct id as [|n]; [done|]. simpl.
      by rewrite filter_cons_False, filter_nil by (simpl; auto).
    - rewrite (Hoff eq_refl). by destruct (intervalId w) as [[|n]|]. }
  split; [|done].
  split; [by unfold stop; destruct (intervalId w) as [[|n]|]|].
  split; [by unfold stop; destruct (intervalId w) as [[|n]|]|].
  split; [done|].
  intros Hp. exfalso. revert Hp. unfold stop. by destruct (intervalId w) as [[|n]|].
Qed.

Lemma fire_beat id w : beat_inv w → beat_inv (fire id w).
Proof. intros H. unfold fire. by case_bool_decide. Qed.

Lemma run_beat evs : beat_inv (run evs).
Proof.
  unfold run. induction evs as [|ev evs IH] using rev_ind.
  - repeat split; try done.
  - rewrite foldl_app. simpl. destruct ev; simpl.
    + by apply start_beat.
    + by apply stop_beat.
    + by apply fire_beat.
Qed.

(** X10.  After any sequence of [start] calls, [stop] calls and timer
    firings, the metronome has at most one repeating timer, and has one
    exactly when it is playing; that timer's period is 500 ms, the beat of
    the constructor's 120 bpm; and [start] on a playing metronome changes
    nothing, so that starting twice does not stack timers. *)
Theorem metronome_single_timer (evs : list Event) :
  length (intervals (run evs)) ≤ 1 ∧
  (isPlaying (run evs) = true ↔ length (intervals (run evs)) = 1) ∧
  Forall (λ iv, (period iv == 500)%Q) (intervals (run evs)) ∧
  start (start (run evs)) = start (run evs).
Proof.
  destruct (run_beat evs) as (Hpos & Hbpm & Hoff & Hon).
  destruct (isPlaying (run evs)) eqn:Hp.
  - destruct (Hon eq_refl) as (id & _ & _ & Hiv). rewrite Hiv. simpl.
    split; [lia|]. split; [done|]. split.
    + apply Forall_singleton. reflexivity.
    + unfold start. by rewrite Hp, Hp.
  - rewrite (Hoff eq_refl). simpl. split; [lia|]. split; [split; [done|lia]|].
    split; [constructor|]. unfold start. by rewrite Hp.
Qed.

(** X11.  [stop] silences the metronome: after it no repeating timer is
    active, so that no firing sounds a click until the next [start]; and
    [start] on a stopped metronome sounds one click at once. *)
Theorem metronome_stop_silences (evs : list Event) (ids : list nat) :
  intervals (stop (run evs)) = [] ∧
  clicks (foldl (λ w id, fire id w) (stop (run evs)) ids) = clicks (run evs) ∧
  clicks (start (stop (run evs))) = S (clicks (run evs)).
Proof.
  destruct (stop_beat (run evs) (run_beat evs)) as [_ Hnone].
  assert (clicks (stop (run evs)) = clicks (run evs) ∧ isPlaying (stop (run evs)) = false)
    as [Hc Hp] by (by unfold stop; destruct (intervalId (run evs)) as [[|n]|]).
  split; [done|]. split.
  - rewrite <- Hc. revert Hnone. generalize (stop (run evs)).
    induction ids as [|id ids IH]; intros w Hnone; simpl; [done|].
    assert (fire id w = w) as -> by (unfold fire; by rewrite Hnone).
    by apply IH.
  - unfold start. rewrite Hp. simpl. by rewrite Hc.
Qed.

End Beat.

(** * More on melody generation: the shape of each pattern *)

Module MelodyShapes.
Import AIComposer.

Local Open Scope Z_scope.

(** X12.  The length of the melody depends on the pattern alone: 9 notes
    for heroic, 4 for sparse and 8 for every other pattern, known or not,
    on any scale and for any draws. *)
Theorem melody_length (notes : list string) (pattern : string) (rnd : nat → Q) :
  length (melody (generateOn notes pattern rnd)) =
    if String.eqb pattern "heroic" then 9%nat
    else if String.eqb pattern "sparse" then 4%nat
    else 8%nat.
Proof.
  unfold generateOn.
  repeat match goal with
         | |- context [String.eqb pattern ?p] =>
             destruct (String.eqb_spec pattern p) as [->|?]
         end;
    try reflexivity.
  unfold heroic. by destruct (truthyNote (scaleAt notes 9)).
Qed.

(** X13.  On a scale of at least eight notes, the descending pattern
    yields the first eight notes of the scale from the eighth down to the
    first, whatever the draws. *)
Theorem descending_pattern (notes : list string) (rnd : nat → Q) :
  (8 ≤ length notes)%nat →
  melody (generateOn notes "descending" rnd) = Some <$> reverse (take 8 notes).
Proof.
  intros Hlen. change (generateOn notes "descending" rnd) with (descending notes).
  unfold descending. cbn [foldl seq reverse rev_append]. unfold pushAt.
  cbn [reads melody emptyGen app].
  rewrite !Z.min_l by (unfold len; lia).
  do 8 (destruct notes as [|? notes]; [simpl in Hlen; lia|]). reflexivity.
Qed.

Lemma descending_pattern_witness :
  (8 ≤ length ["C4"; "D4"; "D#4"; "F4"; "G4"; "G#4"; "A#4"; "C5"; "D5"; "D#5"])%nat ∧
  melody (generateOn ["C4"; "D4"; "D#4"; "F4"; "G4"; "G#4"; "A#4"; "C5"; "D5"; "D#5"]
                     "descending" (λ _, 0%Q)) =
  Some <$> reverse (take 8 ["C4"; "D4"; "D#4"; "F4"; "G4"; "G#4"; "A#4"; "C5"; "D5"; "D#5"]).
Proof.
  split; [simpl; lia|].
  apply (descending_pattern _ (λ _, 0%Q)). simpl. lia.
Defined.

(** X14.  On a scale of one to seven notes, the ascending pattern plays
    the scale once and then repeats its last note up to eight notes: the
    index is clamped to the end of the scale. *)
Theorem ascending_clamps_on_short_scale (notes : list string) (rnd : nat → Q) :
  (0 < length notes < 8)%nat →
  ∃ top,
    last notes = Some top ∧
    melody (generateOn notes "ascending" rnd) =
      Some <$> (notes ++ replicate (8 - length notes) top).
Proof.
  intros Hlen.
  destruct notes as [|a [|b [|c [|d [|e [|f [|g [|h r]]]]]]]];
    simpl in Hlen; try lia; (eexists; split; reflexivity).
Qed.

Lemma ascending_clamps_on_short_scale_witness :
  (0 < length ["C4"; "E4"; "G4"] < 8)%nat ∧
  ∃ top,
    last ["C4"; "E4"; "G4"] = Some top ∧
    melody (generateOn ["C4"; "E4"; "G4"] "ascending" (λ _, 0%Q)) =
      Some <$> (["C4"; "E4"; "G4"] ++ replicate (8 - length ["C4"; "E4"; "G4"]) top).
Proof.
  split; [simpl; lia|].
  apply (ascending_clamps_on_short_scale _ (λ _, 0%Q)). simpl. lia.
Defined.

(** X15.  On any non-empty scale, registered or not, and for any draws in
    [0, 1), every pattern other than heroic and sparse, unknown patterns
    included, reads the scale within its bounds only and yields notes of
    the scale only. *)
Theorem clamped_patterns_in_bounds (notes : list string) (pattern : string)
    (rnd : nat → Q) :
  validDraws rnd →
  notes ≠ [] →
  pattern ≠ "heroic" →
  pattern ≠ "sparse" →
  Forall (λ i, 0 ≤ i < len notes) (reads (generateOn notes pattern rnd)) ∧
  Forall (λ v, ∃ n, v = Some n ∧ n ∈ notes) (melody (generateOn notes pattern rnd)).
Proof.
  intros Hv Hne Hh Hs.
  assert (0 < len notes) as Hlen by (unfold len; destruct notes; [done|simpl; lia]).
  pose proof (MelodyGeneration.generateOn_inBounds notes pattern rnd Hv Hlen
                ltac:(done) ltac:(done)) as Hb.
  split; [apply Hb|by apply MelodyGeneration.inBounds_defined].
Qed.

Lemma clamped_patterns_in_bounds_witness :
  let rnd := λ k : nat, if Nat.even k then (99 # 100)%Q else 0%Q in
  validDraws rnd ∧
  ["C4"; "G4"] ≠ [] ∧
  "playful" ≠ "heroic" ∧
  "playful" ≠ "sparse" ∧
  Forall (λ i, 0 ≤ i < len ["C4"; "G4"]) (reads (generateOn ["C4"; "G4"] "playful" rnd)) ∧
  Forall (λ v, ∃ n, v = Some n ∧ n ∈ ["C4"; "G4"])
         (melody (generateOn ["C4"; "G4"] "playful" rnd)).
Proof.
  intros rnd.
  assert (validDraws rnd) as Hv.
  { intros k. unfold rnd. destruct (Nat.even k); split;
      (unfold Qle || unfold Qlt); simpl; lia. }
  split; [exact Hv|]. split; [discriminate|]. split; [discriminate|].
  split; [discriminate|].
  apply (clamped_patterns_in_bounds ["C4"; "G4"] "playful" rnd Hv); discriminate.
Defined.

(** X16.  On a scale of eight or nine notes the heroic pattern reads
    index 9, finds it undefined and falls back to index 7: the melody is
    the notes at indices 0, 2, 4, 7, 7, 7, 4, 2, 0, all defined. *)
Theorem heroic_falls_back (notes : list string) (rnd : nat → Q) :
  (8 ≤ length notes ≤ 9)%nat →
  reads (generateOn notes "heroic" rnd) = [0; 2; 4; 7; 9; 7; 7; 4; 2; 0] ∧
  ∃ n0 n2 n4 n7,
    notes !! 0%nat = Some n0 ∧ notes !! 2%nat = Some n2 ∧
    notes !! 4%nat = Some n4 ∧ notes !! 7%nat = Some n7 ∧
    melody (generateOn notes "heroic" rnd) =
      Some <$> [n0; n2; n4; n7; n7; n7; n4; n2; n0].
Proof.
  intros Hlen.
  destruct notes as [|a [|b [|c [|d [|e [|f [|g [|h [|i [|j r]]]]]]]]]];
    simpl in Hlen; try lia; (split; [reflexivity|]); by do 4 eexists.
Qed.

Lemma heroic_falls_back_witness :
  (8 ≤ length ["C4"; "D4"; "E4"; "G4"; "A4"; "C5"; "D5"; "E5"] ≤ 9)%nat ∧
  reads (generateOn ["C4"; "D4"; "E4"; "G4"; "A4"; "C5"; "D5"; "E5"] "heroic" (λ _, 0%Q))
    = [0; 2; 4; 7; 9; 7; 7; 4; 2; 0] ∧
  ∃ n0 n2 n4 n7,
    ["C4"; "D4"; "E4"; "G4"; "A4"; "C5"; "D5"; "E5"] !! 0%nat = Some n0 ∧
    ["C4"; "D4"; "E4"; "G4"; "A4"; "C5"; "D5"; "E5"] !! 2%nat = Some n2 ∧
    ["C4"; "D4"; "E4"; "G4"; "A4"; "C5"; "D5"; "E5"] !! 4%nat = Some n4 ∧
    ["C4"; "D4"; "E4"; "G4"; "A4"; "C5"; "D5"; "E5"] !! 7%nat = Some n7 ∧
    melody (generateOn ["C4"; "D4"; "E4"; "G4"; "A4"; "C5"; "D5"; "E5"] "heroic" (λ _, 0%Q))
      = Some <$> [n0; n2; n4; n7; n7; n7; n4; n2; n0].
Proof.
  split; [simpl; lia|].
  apply (heroic_falls_back _ (λ _, 0%Q)). simpl. lia.
Defined.

(** X17.  The heroic and sparse patterns do not clamp their indices: on a
    scale of fewer than eight notes the fourth note of the heroic melody
    is undefined, and on a scale of fewer than seven notes so is the
    fourth note of the sparse melody. *)
Theorem unclamped_patterns_on_short_scale (notes : list string) (rnd : nat → Q) :
  (length notes < 8)%nat →
  melody (generateOn notes "heroic" rnd) !! 3%nat = Some None ∧
  ((length notes < 7)%nat → melody (generateOn notes "sparse" rnd) !! 3%nat = Some None).
Proof.
  intros Hlen.
  destruct notes as [|a [|b [|c [|d [|e [|f [|g [|h r]]]]]]]];
    simpl in Hlen; try lia; (split; [reflexivity|]); intros H; simpl in H;
    try lia; reflexivity.
Qed.

Lemma unclamped_patterns_on_short_scale_witness :
  (length ["C4"; "D4"; "E4"; "F4"; "G4"] < 8)%nat ∧
  melody (generateOn ["C4"; "D4"; "E4"; "F4"; "G4"] "heroic" (λ _, 0%Q)) !! 3%nat
    = Some None ∧
  ((length ["C4"; "D4"; "E4"; "F4"; "G4"] < 7)%nat →
   melody (generateOn ["C4"; "D4"; "E4"; "F4"; "G4"] "sparse" (λ _, 0%Q)) !! 3%nat
     = Some None).
Proof.
  split; [simpl; lia|].
  apply (unclamped_patterns_on_short_scale _ (λ _, 0%Q)). simpl. lia.
Defined.

(** ** The random walk of the gentle and flowing patterns *)

Lemma smooth_snoc l c :
  smooth l → (∀ x, last l = Some x → -1 ≤ c - x ≤ 1) → smooth (l ++ [c]).
Proof.
  induction l as [|a [|b l] IH]; simpl; intros Hs Hlast.
  - done.
  - split; [by apply Hlast|done].
  - destruct Hs as [Hab Hs]. split; [done|]. by apply IH.
Qed.

Lemma walk_smooth notes rnd l : ∀ g c,
  0 < len notes →
  smooth (reads g) →
  (∀ x, last (reads g) = Some x → -1 ≤ c - x ≤ 1) →
  0 ≤ c < len notes →
  smooth (reads (foldl (walkStep notes rnd) (g, c) l).1) ∧
  ∀ x, head (reads g) = Some x →
       head (reads (foldl (walkStep notes rnd) (g, c) l).1) = Some x.
Proof.
  induction l as [|i l IH]; intros g c Hn Hs Hlast Hc; simpl; [done|].
  destruct (IH (pushAt notes g c)
               (Z.max 0 (Z.min (len notes - 1)
                               (c + (if Qgtb (rnd i) (5 # 10) then 1 else -1)))) Hn)
    as [Hsm Hhd].
  - simpl. by apply smooth_snoc.
  - simpl. intros x. rewrite last_snoc. intros [= <-].
    destruct (Qgtb (rnd i) (5 # 10)); lia.
  - destruct (Qgtb (rnd i) (5 # 10)); lia.
  - split; [done|]. intros x Hx. apply Hhd. simpl.
    destruct (reads g); [done|]. simpl in *. done.
Qed.

(** X18.  On a non-empty scale the gentle and flowing patterns walk the
    scale: they start at the middle index and each index read differs from
    the one before by at most one. *)
Theorem flowing_is_a_walk (notes : list string) (rnd : nat → Q) :
  notes ≠ [] →
  generateOn notes "gentle" rnd = generateOn notes "flowing" rnd ∧
  head (reads (generateOn notes "flowing" rnd)) = Some (len notes / 2) ∧
  smooth (reads (generateOn notes "flowing" rnd)).
Proof.
  intros Hne. split; [reflexivity|].
  assert (0 < len notes) as Hlen by (unfold len; destruct notes; [done|simpl; lia]).
  change (generateOn notes "flowing" rnd) with (flowing notes rnd).
  assert (0 ≤ len notes / 2 < len notes) as Hmid
    by (split; [apply Z.div_pos; lia|apply Z.div_lt_upper_bound; lia]).
  split.
  - reflexivity.
  - unfold flowing. by apply walk_smooth.
Qed.

Lemma flowing_is_a_walk_witness :
  let rnd := λ k : nat, if Nat.even k then (99 # 100)%Q else 0%Q in
  ["C4"; "D4"; "E4"; "G4"; "A4"] ≠ [] ∧
  generateOn ["C4"; "D4"; "E4"; "G4"; "A4"] "gentle" rnd =
    generateOn ["C4"; "D4"; "E4"; "G4"; "A4"] "flowing" rnd ∧
  head (reads (generateOn ["C4"; "D4"; "E4"; "G4"; "A4"] "flowing" rnd)) =
    Some (len ["C4"; "D4"; "E4"; "G4"; "A4"] / 2) ∧
  smooth (reads (generateOn ["C4"; "D4"; "E4"; "G4"; "A4"] "flowing" rnd)).
Proof.
  intros rnd. split; [discriminate|].
  apply (flowing_is_a_walk ["C4"; "D4"; "E4"; "G4"; "A4"] rnd). discriminate.
Defined.

(** ** The jumps of the playful pattern *)

Lemma reads_foldl_pushAt notes (f : nat → Z) (l : list nat) : ∀ g,
  reads (foldl (λ g i, pushAt notes g (f i)) g l) = reads g ++ (f <$> l).
Proof.
  induction l as [|i l IH]; intros g; simpl; [by rewrite app_nil_r|].
  rewrite IH. simpl. by rewrite <- app_assoc.
Qed.

Lemma floor_draw_4 r : (0 <= r)%Q → (r < 1)%Q → 0 ≤ Qfloor (r * 4) ≤ 3.
Proof.
  intros H0 H1.
  pose proof (MelodyGeneration.floor_draw r 4 H0 H1 ltac:(lia)) as H.
  change (inject_Z 4) with 4%Q in H. lia.
Qed.

(** X19.  On a non-empty scale and for draws in [0, 1), the [i]-th index
    of the playful pattern is [i] moved by a jump between two down and one
    up, then clamped into the scale; a jump of two up never occurs. *)
Theorem playful_jumps (notes : list string) (rnd : nat → Q) (i : nat) (index : Z) :
  validDraws rnd →
  notes ≠ [] →
  reads (generateOn notes "playful" rnd) !! i = Some index →
  (i < 8)%nat ∧
  ∃ jump, -2 ≤ jump ≤ 1 ∧
          index = Z.max 0 (Z.min (len notes - 1) (Z.of_nat i + jump)).
Proof.
  intros Hv Hne. change (generateOn notes "playful" rnd) with (playful notes rnd).
  unfold playful. rewrite reads_foldl_pushAt. simpl reads. rewrite app_nil_l.
  rewrite list_lookup_fmap. intros Hi.
  destruct (seq 0 8 !! i) as [k|] eqn:Hk; [|done].
  apply lookup_seq in Hk as [-> Hlt]. simpl in Hi. injection Hi as <-.
  split; [done|]. exists (Qfloor (rnd i * 4) - 2). split; [|done].
  destruct (Hv i) as [H0 H1]. pose proof (floor_draw_4 (rnd i) H0 H1). lia.
Qed.

Lemma playful_jumps_witness :
  let rnd := λ k : nat, (99 # 100)%Q in
  let notes := ["C4"; "D4"; "E4"; "F4"; "G4"; "A4"; "B4"; "C5"; "D5"; "E5"] in
  validDraws rnd ∧
  notes ≠ [] ∧
  reads (generateOn notes "playful" rnd) !! 3%nat = Some 4 ∧
  (3 < 8)%nat ∧
  ∃ jump, -2 ≤ jump ≤ 1 ∧
          4 = Z.max 0 (Z.min (len notes - 1) (Z.of_nat 3 + jump)).
Proof.
  intros rnd notes.
  assert (validDraws rnd) as Hv
    by (intros k; split; [unfold Qle|unfold Qlt]; simpl; lia).
  split; [exact Hv|]. split; [discriminate|]. split; [reflexivity|].
  apply (playful_jumps notes rnd 3 4 Hv); [discriminate|reflexivity].
Defined.

End MelodyShapes.

(** * More on the composer: starting and stopping *)

Module ComposerLifecycle.
Import AIComposer.

Local Open Scope nat_scope.

(** X20.  [analyzeMood] returns either the fallback "peaceful", which no
    configuration is registered under, or a mood that has a registered
    configuration: every key of the keyword table is a key of
    [moodConfigs]. *)
Theorem analyzeMood_registered_or_fallback (moodText : string) :
  (analyzeMood moodText = "peaceful" ∧ prop moodConfigs "peaceful" = None) ∨
  is_Some (prop moodConfigs (analyzeMood moodText)).
Proof.
  assert (Forall (λ entry : string * list string, is_Some (prop moodConfigs entry.1))
                 keywords) as Hkeys
    by (unfold keywords; repeat constructor; by eexists).
  unfold analyzeMood, bestOf.
  pose proof (MoodAnalysis.scan_first_max (toLowerCase moodText) "peaceful" 0 keywords) as H.
  destruct (foldl (scan (toLowerCase moodText)) ("peaceful", 0) keywords) as [b m].
  simpl. destruct H as [(-> & _)|(i & mood & words & Hi & -> & _)].
  - by left.
  - right. rewrite Forall_forall in Hkeys.
    apply list_elem_of_lookup_2, Hkeys in Hi. exact Hi.
Qed.

(** ** Starting a composition *)

(** X21.  In any reachable state, [compose] on a registered mood starts a
    composition: the composer plays, its mood is the configuration, its
    composition is the generated melody with the configuration's chords,
    rhythm and tempo, the first note of the melody has been pressed, and
    exactly one next tick is pending. *)
Theorem compose_registered_starts (evs : list Event) (key : string)
    (config : MoodConfig) (rnd : nat → Q) (r : Q) :
  prop moodConfigs key = Some config →
  ∃ mel note,
    generateMelody config rnd = Some mel ∧
    mel !! 0 = Some note ∧
    isPlaying (compose key rnd r (run evs)) = true ∧
    currentMood (compose key rnd r (run evs)) = Some config ∧
    currentComposition (compose key rnd r (run evs)) =
      Some {| comp_melody := mel;
              comp_chords := prop chordProgressions (progression config);
              comp_rhythmPattern := prop rhythms (rhythm config);
              comp_tempo := tempo config |} ∧
    pianoCalls (compose key rnd r (run evs)) = pianoCalls (run evs) ++ [PressKey note] ∧
    length (pendingTicks (compose key rnd r (run evs))) = 1.
Proof.
  intros Hkey. pose proof (CompositionLoop.run_inv evs) as Hinv.
  destruct (CompositionLoop.registered_composition key config rnd Hkey)
    as (mel & chords & rhythmPattern & note & chord & duration
        & Hmel & Hchords & Hrhythm & Hnote & Hchord & Hdur).
  exists mel, note. split; [done|]. split; [done|].
  unfold compose. rewrite Hkey, Hmel, Hchords, Hrhythm.
  set (w1 := if isPlaying (run evs) then stop (run evs) else run evs).
  assert (pendingTicks w1 = [] ∧ pianoCalls w1 = pianoCalls (run evs)) as [Hnone Hcalls].
  { unfold w1. destruct (isPlaying (run evs)) eqn:Hp.
    - split; [by apply CompositionLoop.stop_ticks|].
      unfold stop. simpl. by destruct (intervalId (run evs)) as [[|n]|].
    - split; [by apply Hinv|done]. }
  unfold playComposition.
  erewrite CompositionLoop.playNextNote_eq; [|reflexivity|reflexivity|reflexivity|
                                             reflexivity|exact Hnote|exact Hchord|exact Hdur].
  simpl. rewrite Hcalls. repeat split.
  unfold pendingTicks in *. simpl.
  rewrite filter_app, Hnone, CompositionLoop.stamp_app, filter_app,
    CompositionLoop.stamp_ticks_none.
  - reflexivity.
  - destruct (Qgtb r chordThreshold);
      [apply CompositionLoop.chordRequests_no_tick|constructor].
Qed.

Lemma compose_registered_starts_witness :
  let config := mkMood "⚔️ Epic Adventure" "major" "epic" "syncopated" 400 "powerful"
                  "heroic" "Grand, heroic composition with powerful progressions" in
  let evs := [Compose "joy" (λ _, 0%Q) 0] in
  prop moodConfigs "epic" = Some config ∧
  ∃ mel note,
    generateMelody config (λ _, 0%Q) = Some mel ∧
    mel !! 0 = Some note ∧
    isPlaying (compose "epic" (λ _, 0%Q) 0 (run evs)) = true ∧
    currentMood (compose "epic" (λ _, 0%Q) 0 (run evs)) = Some config ∧
    currentComposition (compose "epic" (λ _, 0%Q) 0 (run evs)) =
      Some {| comp_melody := mel;
              comp_chords := prop chordProgressions (progression config);
              comp_rhythmPattern := prop rhythms (rhythm config);
              comp_tempo := tempo config |} ∧
    pianoCalls (compose "epic" (λ _, 0%Q) 0 (run evs)) =
      pianoCalls (run evs) ++ [PressKey note] ∧
    length (pendingTicks (compose "epic" (λ _, 0%Q) 0 (run evs))) = 1.
Proof.
  intros config evs. split; [reflexivity|].
  apply (compose_registered_starts evs "epic" config (λ _, 0%Q) 0). reflexivity.
Defined.

(** X22.  [compose] on a key that has no registered configuration, and
    that is not the name of a member every object inherits, starts
    nothing, in any state: it creates no timer and calls the piano for no
    note, and the composer is not playing afterwards; a composer that was
    not playing is left exactly as it was. *)
Theorem compose_unregistered_starts_nothing (key : string) (rnd : nat → Q) (r : Q)
    (w : World) :
  prop moodConfigs key = None →
  key ∉ inheritedKeys →
  compose key rnd r w = (if isPlaying w then stop w else w) ∧
  isPlaying (compose key rnd r w) = false ∧
  nextTimerId (compose key rnd r w) = nextTimerId w ∧
  pianoCalls (compose key rnd r w) = pianoCalls w ∧
  (∀ t, t ∈ timers (compose key rnd r w) → t ∈ timers w).
Proof.
  intros Hkey _. unfold compose. rewrite Hkey.
  split; [done|]. destruct (isPlaying w) eqn:Hp; [|done].
  unfold stop. simpl. destruct (intervalId w) as [[|n]|]; simpl; repeat split; try done.
  intros t Ht. by apply list_elem_of_filter in Ht as [_ Ht].
Qed.

Lemma compose_unregistered_starts_nothing_witness :
  let w := compose "joy" (λ _, 0%Q) 0 init in
  prop moodConfigs "thunder" = None ∧
  ("thunder" ∉ inheritedKeys) ∧
  compose "thunder" (λ _, 0%Q) 0 w = (if isPlaying w then stop w else w) ∧
  isPlaying (compose "thunder" (λ _, 0%Q) 0 w) = false ∧
  nextTimerId (compose "thunder" (λ _, 0%Q) 0 w) = nextTimerId w ∧
  pianoCalls (compose "thunder" (λ _, 0%Q) 0 w) = pianoCalls w ∧
  (∀ t, t ∈ timers (compose "thunder" (λ _, 0%Q) 0 w) → t ∈ timers w).
Proof.
  intros w.
  assert ("thunder" ∉ inheritedKeys) as Hown
    by (apply (bool_decide_unpack _); by vm_compute).
  split; [reflexivity|]. split; [exact Hown|].
  apply (compose_unregistered_starts_nothing "thunder" (λ _, 0%Q) 0 w);
    [reflexivity|exact Hown].
Defined.

(** ** Stopping *)

(** [stop] is idempotent, in any state. *)
Theorem stop_twice (w : World) : stop (stop w) = stop w.
Proof. unfold stop. simpl. by destruct (intervalId w) as [[|n]|]. Qed.

Lemma setTimeout_handles cb d w :
  isTick (mkTimer 0 d cb) = false →
  handles_inv w → handles_inv (snd (setTimeout cb d w)).
Proof.
  intros Hcb [Hbound Hid]. split; simpl.
  - intros t Ht. apply elem_of_app in Ht as [Ht|Ht].
    + apply Hbound in Ht. lia.
    + apply list_elem_of_singleton in Ht as ->. simpl. lia.
  - intros id Hi. destruct (Hid id Hi) as [Hlt Htick]. split; [lia|].
    intros t Ht Heq. apply elem_of_app in Ht as [Ht|Ht]; [by apply Htick|].
    apply list_elem_of_singleton in Ht as ->. simpl in Heq. lia.
Qed.

Lemma scheduleChord_handles note chord : ∀ w,
  handles_inv w → handles_inv (scheduleChord note chord w).
Proof.
  unfold scheduleChord. induction chord as [|c chord IH]; intros w H; simpl; [done|].
  apply IH. case_bool_decide; [|done]. by apply setTimeout_handles.
Qed.

Lemma clearTimeout_handles id w : handles_inv w → handles_inv (clearTimeout id w).
Proof.
  intros [Hbound Hid]. split; simpl.
  - intros t Ht. apply list_elem_of_filter in Ht as [_ Ht]. by apply Hbound.
  - intros i Hi. destruct (Hid i Hi) as [Hlt Htick]. split; [done|].
    intros t Ht. apply list_elem_of_filter in Ht as [_ Ht]. by apply Htick.
Qed.

Lemma stop_handles w : handles_inv w → handles_inv (stop w).
Proof.
  intros [Hbound Hid]. unfold stop, handles_inv.
  destruct (intervalId w) as [[|n]|] eqn:E; simpl.
  - split; [done|]. intros id Hi. apply Hid. congruence.
  - split; [|done]. intros t Ht.
    apply list_elem_of_filter in Ht as [_ Ht]. by apply Hbound.
  - split; [done|]. intros id Hi. congruence.
Qed.

Lemma playNextNote_handles m c k r w :
  handles_inv w → handles_inv (playNextNote m c k r w).
Proof.
  intros H. unfold playNextNote.
  destruct (isPlaying w); simpl; [|done].
  destruct (currentComposition w) as [comp|]; [|done].
  set (note := mjoin _).
  set (w1 := callPiano (PressKey note) w).
  assert (handles_inv w1) as H1 by done.
  set (chordStep := if Qgtb r chordThreshold then _ else _).
  assert (match chordStep with
          | Some (w2, _) => handles_inv w2
          | None => True
          end) as H2.
  { unfold chordStep. destruct (Qgtb r chordThreshold); [|done].
    destruct (comp_chords comp) as [chords|]; [|done].
    destruct (atCursor chords c) as [chord|]; [|done].
    by apply scheduleChord_handles. }
  destruct chordStep as [[w2 c']|]; [|done].
  destruct (comp_rhythmPattern comp) as [rhythmPattern|]; [|done].
  set (d := atCursor rhythmPattern k).
  pose proof (setTimeout_handles (ReleaseNote note) (releaseDelay d) w2 eq_refl H2)
    as [Hbound _].
  split; simpl.
  - intros t Ht. apply elem_of_app in Ht as [Ht|Ht].
    + apply Hbound in Ht. simpl in Ht. lia.
    + apply list_elem_of_singleton in Ht as ->. simpl. lia.
  - intros id [= <-]. split; [lia|].
    intros t Ht Heq. apply elem_of_app in Ht as [Ht|Ht].
    + apply Hbound in Ht. simpl in Ht. lia.
    + by apply list_elem_of_singleton in Ht as ->.
Qed.

Lemma compose_handles key rnd r w : handles_inv w → handles_inv (compose key rnd r w).
Proof.
  intros H. unfold compose.
  set (w1 := if isPlaying w then stop w else w).
  assert (handles_inv w1) as H1
    by (unfold w1; destruct (isPlaying w); [by apply stop_handles|done]).
  destruct (prop moodConfigs key) as [config|]; [|done].
  destruct (generateMelody config rnd) as [mel|]; [|done].
  by apply playNextNote_handles.
Qed.

Lemma fire_handles id r w : handles_inv w → handles_inv (fire id r w).
Proof.
  intros H. unfold fire. destruct (List.find _ (timers w)) as [t|]; [|done].
  pose proof (clearTimeout_handles id w H) as Hc.
  destruct (callback t); simpl; try done. by apply playNextNote_handles.
Qed.

Lemma run_handles evs : handles_inv (run evs).
Proof.
  unfold run. induction evs as [|ev evs IH] using rev_ind.
  - split; simpl; [|done]. intros t Ht. by apply elem_of_nil in Ht.
  - rewrite foldl_app. simpl. destruct ev; simpl.
    + by apply compose_handles.
    + by apply stop_handles.
    + by apply fire_handles.
Qed.

Lemma filter_agree {A} (P Q : A → Prop) `{!∀ x, Decision (P x)} `{!∀ x, Decision (Q x)}
    (l : list A) :
  (∀ x, x ∈ l → (P x ↔ Q x)) → filter P l = filter Q l.
Proof.
  induction l as [|a l IH]; intros Hall; [done|].
  rewrite !filter_cons.
  assert (filter P l = filter Q l) as ->
    by (apply IH; intros x Hx; apply Hall; by right).
  destruct (Hall a ltac:(left)) as [H1 H2].
  destruct (decide (P a)), (decide (Q a)); tauto.
Qed.

(** X23.  In any reachable state, [stop] cancels the pending next tick
    and nothing else: the timers pending afterwards are exactly the
    releases and chord presses that were pending before, in the same
    order, so that notes in flight are still released. *)
Theorem stop_cancels_only_the_tick (evs : list Event) :
  timers (stop (run evs)) = filter (λ t, isTick t = false) (timers (run evs)).
Proof.
  destruct (CompositionLoop.run_inv evs) as (_ & _ & Hone).
  destruct (run_handles evs) as [_ Hid].
  assert (∀ t, t ∈ timers (run evs) → isTick t = true → t ∈ pendingTicks (run evs))
    as Hpend by (intros t Ht Htick; by apply list_elem_of_filter).
  unfold stop. simpl. destruct (intervalId (run evs)) as [[|n]|] eqn:E; simpl.
  - rewrite <- (filter_agree (λ _, True) (λ t, isTick t = false)).
    + clear. induction (timers (run evs)) as [|t l IH]; [done|].
      by rewrite filter_cons_True, <- IH.
    + intros t Ht. split; [|done]. intros _.
      destruct (isTick t) eqn:Htick; [|done]. exfalso.
      destruct Hone as [Hnone|(t' & _ & Hi & Hnz)]; [|congruence].
      apply Hpend in Ht; [|done]. rewrite Hnone in Ht. by apply elem_of_nil in Ht.
  - apply filter_agree. intros t Ht. split.
    + intros Hne. destruct (isTick t) eqn:Htick; [|done]. exfalso.
      apply Hpend in Ht; [|done].
      destruct Hone as [Hnone|(t' & Ht' & Hi & _)].
      * rewrite Hnone in Ht. by apply elem_of_nil in Ht.
      * rewrite Ht' in Ht. apply list_elem_of_singleton in Ht as ->. congruence.
    + intros Htick Heq. destruct (Hid (S n) eq_refl) as [_ H].
      specialize (H t Ht Heq). congruence.
  - rewrite <- (filter_agree (λ _, True) (λ t, isTick t = false)).
    + clear. induction (timers (run evs)) as [|t l IH]; [done|].
      by rewrite filter_cons_True, <- IH.
    + intros t Ht. split; [|done]. intros _.
      destruct (isTick t) eqn:Htick; [|done]. exfalso.
      destruct Hone as [Hnone|(t' & _ & Hi & Hnz)]; [|congruence].
      apply Hpend in Ht; [|done]. rewrite Hnone in Ht. by apply elem_of_nil in Ht.
Qed.

(** X24.  Once stopped, a composer stays stopped until the next call of
    [compose]: whatever timers fire and however often [stop] is called
    again, it is not playing, no next tick is pending, and no timer is
    created. *)
Theorem stopped_stays_stopped (evs after : list Event) :
  Forall noCompose after →
  isPlaying (foldl step (stop (run evs)) after) = false ∧
  pendingTicks (foldl step (stop (run evs)) after) = [] ∧
  (∀ t, t ∈ timers (foldl step (stop (run evs)) after) → t ∈ timers (stop (run evs))).
Proof.
  intros Hafter.
  assert (isPlaying (stop (run evs)) = false) as Hp
    by (unfold stop; simpl; by destruct (intervalId (run evs)) as [[|n]|]).
  destruct (CompositionLoop.stop_ticks (run evs) (CompositionLoop.run_inv evs))
    as [Hinv _].
  revert Hafter Hp Hinv. generalize (stop (run evs)). intros w0.
  induction after as [|ev after IH] using rev_ind; intros Hafter Hp Hinv.
  - simpl. split; [done|]. split; [by apply Hinv|done].
  - apply Forall_app in Hafter as [Hafter Hev]. rewrite Forall_singleton in Hev.
    destruct (IH Hafter Hp Hinv) as (Hp' & Hnone & Hsub).
    rewrite foldl_app. simpl. set (w := foldl step w0 after) in *.
    destruct ev as [key rnd r| |id r]; simpl; [done| |].
    + split; [unfold stop; simpl; by destruct (intervalId w) as [[|n]|]|].
      split.
      * unfold stop. simpl. destruct (intervalId w) as [[|n]|]; try exact Hnone.
        change (pendingTicks (clearTimeout (S n) w) = []).
        by rewrite CompositionLoop.clearTimeout_ticks, Hnone.
      * intros t Ht. apply Hsub. revert Ht. unfold stop. simpl.
        destruct (intervalId w) as [[|n]|]; simpl; try done.
        intros Ht. by apply list_elem_of_filter in Ht as [_ Ht].
    + unfold fire. destruct (List.find _ (timers w)) as [t|] eqn:Hfind; [|done].
      assert (pendingTicks (clearTimeout id w) = []) as Hnone'
        by (by rewrite CompositionLoop.clearTimeout_ticks, Hnone).
      assert (∀ t', t' ∈ timers (clearTimeout id w) → t' ∈ timers w0) as Hsub'.
      { intros t' Ht'. apply Hsub. simpl in Ht'.
        by apply list_elem_of_filter in Ht' as [_ Ht']. }
      destruct (callback t) as [m c k|chordNote|note]; simpl; try done.
      unfold playNextNote. simpl. by rewrite Hp'.
Qed.

Lemma stopped_stays_stopped_witness :
  let evs := [Compose "joy" (λ _, 0%Q) (9 # 10)] in
  let after := [Fire 1 0; Fire 4 0; Stop; Fire 2 0] in
  Forall noCompose after ∧
  isPlaying (foldl step (stop (run evs)) after) = false ∧
  pendingTicks (foldl step (stop (run evs)) after) = [] ∧
  (∀ t, t ∈ timers (foldl step (stop (run evs)) after) → t ∈ timers (stop (run evs))).
Proof.
  intros evs after.
  assert (Forall noCompose after) as Hafter by (repeat constructor).
  split; [exact Hafter|].
  apply (stopped_stays_stopped evs after Hafter).
Defined.

End ComposerLifecycle.

(** * The composer's notes are notes of the audio engine *)

Module ComposerNotes.
Import AIComposer.

Lemma registered_notes_known key config :
  prop moodConfigs key = Some config →
  ∃ notes chords,
    prop scales (scale config) = Some notes ∧
    prop chordProgressions (progression config) = Some chords ∧
    Forall (λ n, is_Some (PianoAudioEngine.frequencyOf n)) notes ∧
    Forall (Forall (λ c, is_Some (PianoAudioEngine.frequencyOf c))) chords ∧
    (0 < len notes)%Z ∧
    (pattern config = "heroic" →
     (10 ≤ len notes)%Z ∧ truthyNote (scaleAt notes 9) = true) ∧
    (pattern config = "sparse" → (7 ≤ len notes)%Z).
Proof.
  unfold moodConfigs. cbn [prop].
  repeat (destruct (String.eqb _ key);
          [intros [= <-]; do 2 eexists;
           split; [reflexivity|]; split; [reflexivity|];
           split; [apply (bool_decide_unpack _); by vm_compute|];
           split; [apply (bool_decide_unpack _); by vm_compute|];
           by vm_compute|]).
  discriminate.
Qed.

(** X25.  For every registered mood and all draws in [0, 1), every note of
    the generated melody and every note of every chord of the mood's
    progression has a frequency in the audio engine's table: the composer
    never asks the piano for a note it cannot play. *)
Theorem composer_notes_have_frequencies (key : string) (config : MoodConfig)
    (rnd : nat → Q) :
  prop moodConfigs key = Some config →
  validDraws rnd →
  ∃ mel chords,
    generateMelody config rnd = Some mel ∧
    prop chordProgressions (progression config) = Some chords ∧
    Forall (λ v, ∃ n, v = Some n ∧ is_Some (PianoAudioEngine.frequencyOf n)) mel ∧
    Forall (Forall (λ c, is_Some (PianoAudioEngine.frequencyOf c))) chords.
Proof.
  intros Hkey Hv.
  destruct (registered_notes_known key config Hkey)
    as (notes & chords & Hscale & Hchords & Hnotes & Hknown & Hn & Hheroic & Hsparse).
  pose proof (MelodyGeneration.generateOn_inBounds notes (pattern config) rnd
                Hv Hn Hheroic Hsparse) as Hb.
  apply MelodyGeneration.inBounds_defined in Hb.
  exists (melody (generateOn notes (pattern config) rnd)), chords.
  unfold generateMelody, generateTrace. rewrite Hscale. simpl.
  split; [done|]. split; [done|]. split; [|done].
  eapply Forall_impl; [exact Hb|]. simpl. intros v (n & -> & Hin).
  exists n. split; [done|]. rewrite Forall_forall in Hnotes. by apply Hnotes.
Qed.

Lemma composer_notes_have_frequencies_witness :
  let rnd := λ _ : nat, (1 # 3)%Q in
  let config := mkMood "⛈️ Thunderstorm" "chromatic" "mysterious" "syncopated" 300
                  "intense" "chaotic"
                  "Dramatic, intense composition with powerful dynamics" in
  prop moodConfigs "storm" = Some config ∧
  validDraws rnd ∧
  ∃ mel chords,
    generateMelody config rnd = Some mel ∧
    prop chordProgressions (progression config) = Some chords ∧
    Forall (λ v, ∃ n, v = Some n ∧ is_Some (PianoAudioEngine.frequencyOf n)) mel ∧
    Forall (Forall (λ c, is_Some (PianoAudioEngine.frequencyOf c))) chords.
Proof.
  intros rnd config.
  assert (validDraws rnd) as Hv
    by (intros k; split; [unfold Qle|unfold Qlt]; simpl; lia).
  split; [reflexivity|]. split; [exact Hv|].
  apply (composer_notes_have_frequencies "storm" config rnd); [reflexivity|exact Hv].
Defined.

End ComposerNotes.

(** * The keyboard *)

Module Keyboard.
Import VirtualPiano.

Lemma keyMap_notes_known k note :
  AIComposer.prop keyMap k = Some note →
  ∃ f, PianoAudioEngine.frequencyOf note = Some f.
Proof.
  unfold keyMap. cbn [AIComposer.prop].
  repeat (destruct (String.eqb _ k); [intros [= <-]; by eexists|]).
  discriminate.
Qed.

(** X26.  The keyboard never asks for a note the engine cannot play: a
    key-down of a mapped key that is not held, in any state, marks the key
    as held, gives the key's note an entry in the map of active notes, and
    that entry is sounding at the frequency of the note. *)
Theorem keydown_sounds_the_note (e : KeyboardEvent) (p : Piano) (note : string) :
  toUpperCase (key e) ∉ pressedKeys p →
  code e ≠ "Space" →
  AIComposer.prop keyMap (toUpperCase (key e)) = Some note →
  ∃ s,
    PianoAudioEngine.activeNotes (audioEngine (handleKeyDown e p)) !! note = Some s ∧
    s ∈ PianoAudioEngine.sounding (audioEngine (handleKeyDown e p)) ∧
    PianoAudioEngine.frequencyOf note = Some (PianoAudioEngine.frequency s) ∧
    toUpperCase (key e) ∈ pressedKeys (handleKeyDown e p) ∧
    notesPlayed (handleKeyDown e p) = S (notesPlayed p).
Proof.
  intros Hfree Hcode Hmap. unfold handleKeyDown.
  rewrite bool_decide_eq_false_2 by done.
  destruct (String.eqb_spec (code e) "Space") as [?|_]; [done|].
  rewrite Hmap. simpl.
  destruct (keyMap_notes_known _ _ Hmap) as [f Hf].
  unfold PianoAudioEngine.press, PianoAudioEngine.playNote.
  rewrite Hf, (VoiceManager.frequencyOf_truthy note f Hf). simpl.
  eexists. split; [apply lookup_insert_eq|]. split; [|split; [done|split; [|done]]].
  - apply elem_of_app. right. by apply list_elem_of_singleton.
  - unfold PianoAudioEngine.set_add. rewrite decide_False by done.
    apply elem_of_app. right. by apply list_elem_of_singleton.
Qed.

Lemma keydown_sounds_the_note_witness :
  let e := mkKey "g" "KeyG" in
  (toUpperCase (key e) ∉ pressedKeys (init 0)) ∧
  code e ≠ "Space" ∧
  AIComposer.prop keyMap (toUpperCase (key e)) = Some "G4" ∧
  ∃ s,
    PianoAudioEngine.activeNotes (audioEngine (handleKeyDown e (init 0))) !! "G4" = Some s ∧
    s ∈ PianoAudioEngine.sounding (audioEngine (handleKeyDown e (init 0))) ∧
    PianoAudioEngine.frequencyOf "G4" = Some (PianoAudioEngine.frequency s) ∧
    toUpperCase (key e) ∈ pressedKeys (handleKeyDown e (init 0)) ∧
    notesPlayed (handleKeyDown e (init 0)) = S (notesPlayed (init 0)).
Proof.
  intros e.
  assert (toUpperCase (key e) ∉ pressedKeys (init 0)) as Hfree by apply not_elem_of_nil.
  assert (code e ≠ "Space") as Hcode by discriminate.
  split; [exact Hfree|]. split; [exact Hcode|]. split; [reflexivity|].
  apply (keydown_sounds_the_note e (init 0) "G4" Hfree Hcode). reflexivity.
Defined.

Lemma setSustain_flag b e :
  PianoAudioEngine.sustainActive (PianoAudioEngine.setSustain b e) = b.
Proof.
  unfold PianoAudioEngine.setSustain. destruct b; simpl; [done|].
  by destruct (VoiceManager.flush_fields (PianoAudioEngine.sustainedNotes e)
                 (PianoAudioEngine.with_sustainActive false e)) as [-> _].
Qed.

(** X27.  Key repeat has no effect: handling the same key-down twice in a
    row, whatever the key and the state, leaves the piano as the first
    handling left it. *)
Theorem keydown_repeat_is_ignored (e : KeyboardEvent) (p : Piano) :
  handleKeyDown e (handleKeyDown e p) = handleKeyDown e p.
Proof.
  destruct (decide (toUpperCase (key e) ∈ pressedKeys p)) as [Hheld|Hfree].
  { assert (handleKeyDown e p = p) as ->
      by (unfold handleKeyDown; by rewrite bool_decide_eq_true_2).
    unfold handleKeyDown. by rewrite bool_decide_eq_true_2. }
  destruct (String.eqb (code e) "Space") eqn:Hspace.
  - destruct (PianoAudioEngine.sustainActive (audioEngine p)) eqn:Hs.
    + assert (handleKeyDown e p = p) as ->.
      { unfold handleKeyDown. rewrite bool_decide_eq_false_2 by done.
        by rewrite Hspace, Hs. }
      unfold handleKeyDown. rewrite bool_decide_eq_false_2 by done.
      by rewrite Hspace, Hs.
    + assert (handleKeyDown e p = toggleSustain p) as ->.
      { unfold handleKeyDown. rewrite bool_decide_eq_false_2 by done.
        by rewrite Hspace, Hs. }
      unfold handleKeyDown.
      change (pressedKeys (toggleSustain p)) with (pressedKeys p).
      rewrite bool_decide_eq_false_2 by done. rewrite Hspace.
      change (audioEngine (toggleSustain p))
        with (PianoAudioEngine.setSustain
                (negb (PianoAudioEngine.sustainActive (audioEngine p))) (audioEngine p)).
      by rewrite setSustain_flag, Hs.
  - destruct (AIComposer.prop keyMap (toUpperCase (key e))) as [note|] eqn:Hmap.
    + assert (handleKeyDown e p =
              pressKey note (with_pressedKeys (pressedKeys p ++ [toUpperCase (key e)]) p))
        as ->.
      { unfold handleKeyDown. rewrite bool_decide_eq_false_2 by done.
        rewrite Hspace, Hmap. unfold PianoAudioEngine.set_add.
        by rewrite decide_False. }
      unfold handleKeyDown. simpl. rewrite bool_decide_eq_true_2; [done|].
      apply elem_of_app. right. by apply list_elem_of_singleton.
    + assert (handleKeyDown e p = p) as ->.
      { unfold handleKeyDown. rewrite bool_decide_eq_false_2 by done.
        by rewrite Hspace, Hmap. }
      unfold handleKeyDown. rewrite bool_decide_eq_false_2 by done.
      by rewrite Hspace, Hmap.
Qed.

Lemma filter_out_last (l : list string) (k : string) :
  k ∉ l → filter (λ x, x ≠ k) (l ++ [k]) = l.
Proof.
  intros Hk. rewrite filter_app, filter_cons_False, filter_nil, app_nil_r by auto.
  induction l as [|a l IH]; [done|].
  apply not_elem_of_cons in Hk as [Hne Hk].
  rewrite filter_cons_True by done. by rewrite IH.
Qed.

(** X28.  With the pedal up, a key-down of a mapped key that is not held
    followed by its key-up leaves the set of held keys as it was and the
    key's note without an entry in the map of active notes; the recorder
    has been told of the press and of the release, in this order, and the
    count of notes played has gone up by one. *)
Theorem keydown_then_keyup (e : KeyboardEvent) (p : Piano) (note : string) :
  PianoAudioEngine.sustainActive (audioEngine p) = false →
  toUpperCase (key e) ∉ pressedKeys p →
  code e ≠ "Space" →
  AIComposer.prop keyMap (toUpperCase (key e)) = Some note →
  pressedKeys (handleKeyUp e (handleKeyDown e p)) = pressedKeys p ∧
  PianoAudioEngine.activeNotes (audioEngine (handleKeyUp e (handleKeyDown e p))) !! note
    = None ∧
  PianoAudioEngine.sustainActive (audioEngine (handleKeyUp e (handleKeyDown e p)))
    = false ∧
  recorder (handleKeyUp e (handleKeyDown e p)) =
    RecordingEngine.releaseKey note (RecordingEngine.pressKey note (recorder p)) ∧
  notesPlayed (handleKeyUp e (handleKeyDown e p)) = S (notesPlayed p).
Proof.
  intros Hup Hfree Hcode Hmap. unfold handleKeyUp, handleKeyDown.
  rewrite bool_decide_eq_false_2 by done.
  destruct (String.eqb_spec (code e) "Space") as [?|_]; [done|].
  rewrite Hmap. simpl. unfold PianoAudioEngine.set_add.
  rewrite decide_False by done. rewrite filter_out_last by done.
  split; [done|].
  assert (PianoAudioEngine.sustainActive
            (PianoAudioEngine.press note (audioEngine p)) = false) as Hup'.
  { unfold PianoAudioEngine.press, PianoAudioEngine.playNote.
    destruct (negb _); [done|].
    destruct (PianoAudioEngine.frequencyOf note); [|done]. simpl.
    case_bool_decide; [|done]. unfold PianoAudioEngine.stopNote. rewrite Hup.
    by destruct (PianoAudioEngine.activeNotes (audioEngine p) !! note). }
  unfold PianoAudioEngine.release, PianoAudioEngine.stopNote. rewrite Hup'.
  split; [|split; [|done]].
  - apply (VoiceManager.releaseSustained_same
             (PianoAudioEngine.press note (audioEngine p)) note).
  - destruct (VoiceManager.releaseSustained_fields
                (PianoAudioEngine.press note (audioEngine p)) note) as (Hf & _).
    unfold PianoAudioEngine.releaseSustained in Hf. by rewrite Hf.
Qed.

Lemma keydown_then_keyup_witness :
  let e := mkKey "a" "KeyA" in
  let p := init 0 in
  PianoAudioEngine.sustainActive (audioEngine p) = false ∧
  (toUpperCase (key e) ∉ pressedKeys p) ∧
  code e ≠ "Space" ∧
  AIComposer.prop keyMap (toUpperCase (key e)) = Some "C4" ∧
  pressedKeys (handleKeyUp e (handleKeyDown e p)) = pressedKeys p ∧
  PianoAudioEngine.activeNotes (audioEngine (handleKeyUp e (handleKeyDown e p))) !! "C4"
    = None ∧
  PianoAudioEngine.sustainActive (audioEngine (handleKeyUp e (handleKeyDown e p)))
    = false ∧
  recorder (handleKeyUp e (handleKeyDown e p)) =
    RecordingEngine.releaseKey "C4" (RecordingEngine.pressKey "C4" (recorder p)) ∧
  notesPlayed (handleKeyUp e (handleKeyDown e p)) = S (notesPlayed p).
Proof.
  intros e p.
  assert (toUpperCase (key e) ∉ pressedKeys p) as Hfree by apply not_elem_of_nil.
  assert (code e ≠ "Space") as Hcode by discriminate.
  split; [reflexivity|]. split; [exact Hfree|]. split; [exact Hcode|].
  split; [reflexivity|].
  apply (keydown_then_keyup e p "C4" eq_refl Hfree Hcode). reflexivity.
Defined.

End Keyboard.
